(** * CleanScript: the transcript route [src/app/api/getscript/route.ts]

    A shallow embedding of the request handler of the CleanScript
    application: URL validation, audio download, transcription, cleanup of
    the transcript segments by a language model with its fallbacks, and the
    assembly of the response.

    Conventions of the embedding.
    - A JavaScript string is a [string]: a sequence of code units, here
      restricted to the range 0..255.  Case mapping is modelled on the
      ASCII letters; the other code units are left unchanged.
    - A JavaScript [number] is a binary64 [float].
    - A regular expression is a term of [regex], run by a backtracking
      matcher written, as in the ECMAScript specification, in
      continuation-passing style.
    - An [async] function is a computation of [M]: it appends to the trace
      of observable events (console lines and calls to the three external
      services) and either returns a value or throws.
    - Whatever the route obtains from outside its own text (the built-in
      [JSON.parse], the replies of the external services, the environment
      variables, the fresh uuid) is a field of [Host]. *)

From Stdlib Require Import List String Ascii Bool Arith ZArith NArith Lia.
From Stdlib Require Import Floats DecimalString.
From Stdlib.Strings Require Import Byte.
Import ListNotations.

Set Warnings "-register-all".

Local Open Scope string_scope.
Local Open Scope list_scope.
Local Open Scope nat_scope.

(** ** Strings *)

Module JsString.

Definition chars (s : string) : list ascii := list_ascii_of_string s.
Definition str (l : list ascii) : string := string_of_list_ascii l.

Definition code (c : ascii) : nat := nat_of_ascii c.

Definition isUpper (c : ascii) : bool := (65 <=? code c) && (code c <=? 90).
Definition isLower (c : ascii) : bool := (97 <=? code c) && (code c <=? 122).
Definition isDigit (c : ascii) : bool := (48 <=? code c) && (code c <=? 57).

Definition lowerChar (c : ascii) : ascii :=
  if isUpper c then ascii_of_nat (code c + 32) else c.
Definition upperChar (c : ascii) : ascii :=
  if isLower c then ascii_of_nat (code c - 32) else c.

(** [String.prototype.toLowerCase], [toUpperCase] *)
Definition toLowerCase (s : string) : string := str (map lowerChar (chars s)).
Definition toUpperCase (s : string) : string := str (map upperChar (chars s)).

(** [WhiteSpace] and [LineTerminator] code units below 128: what [\s]
    matches and what [trim] strips. *)
Definition isSpace (c : ascii) : bool :=
  let n := code c in
  (n =? 9) || (n =? 10) || (n =? 11) || (n =? 12) || (n =? 13) || (n =? 32).

(** [\w] and the word characters of [\b] *)
Definition isWordChar (c : ascii) : bool :=
  isUpper c || isLower c || isDigit c || (code c =? 95).

Fixpoint trimStartChars (l : list ascii) : list ascii :=
  match l with
  | c :: l' => if isSpace c then trimStartChars l' else l
  | [] => []
  end.

(** [String.prototype.trim] *)
Definition trim (s : string) : string :=
  str (rev (trimStartChars (rev (trimStartChars (chars s))))).

(** [s.charAt(0)]: the empty string when [s] is empty *)
Definition charAt0 (s : string) : string :=
  match s with
  | EmptyString => EmptyString
  | String c _ => String c EmptyString
  end.

(** [s.slice(1)] *)
Definition slice1 (s : string) : string :=
  match s with
  | EmptyString => EmptyString
  | String _ s' => s'
  end.

End JsString.

(** ** Regular expressions *)

Module Regex.
Import JsString.

Inductive regex : Type :=
| Empty                              (* the empty pattern *)
| Char (c : ascii)                   (* a literal character *)
| Class (p : ascii -> bool)          (* a character class or class escape *)
| Seq (r1 r2 : regex)                (* r1r2 *)
| Alt (r1 r2 : regex)                (* r1|r2 *)
| Star (r : regex)                   (* r*, greedy *)
| Group (n : nat) (r : regex)        (* the n-th capturing parentheses *)
| Bol                                (* ^, without the m flag *)
| WordBoundary.                      (* \b *)

Definition Plus (r : regex) : regex := Seq r (Star r).      (* r+ *)
Definition Opt (r : regex) : regex := Alt r Empty.          (* r? *)

(** A literal string, character by character. *)
Fixpoint Lit (l : list ascii) : regex :=
  match l with
  | [] => Empty
  | c :: l' => Seq (Char c) (Lit l')
  end.

(** The matcher's state: the input before the current position (nearest
    character first), the input from the current position on, and the
    captures made so far. *)
Record mstate : Type := MState {
  before : list ascii;
  after : list ascii;
  caps : list (nat * list ascii)
}.

Definition Continuation : Type := mstate -> option mstate.

Definition step (st : mstate) (c : ascii) (rest : list ascii) : mstate :=
  MState (c :: before st) rest (caps st).

(** Equality of a pattern character and an input character; under the [i]
    flag both are canonicalized (upper-cased) first. *)
Definition charMatches (ignoreCase : bool) (c x : ascii) : bool :=
  if ignoreCase then Ascii.eqb (upperChar c) (upperChar x) else Ascii.eqb c x.

Definition isWordAt (l : list ascii) : bool :=
  match l with
  | c :: _ => isWordChar c
  | [] => false
  end.

(** Greedy iteration: run [body] as long as it succeeds and consumes input,
    preferring one more round to stopping.  [n] bounds the rounds by the
    length of the remaining input. *)
Fixpoint starLoop (body : mstate -> Continuation -> option mstate)
    (k : Continuation) (n : nat) (st : mstate) : option mstate :=
  match n with
  | O => k st
  | S n' =>
      match body st (fun st' =>
                if List.length (after st') <? List.length (after st)
                then starLoop body k n' st' else None) with
      | Some e => Some e
      | None => k st
      end
  end.

Fixpoint rmatch (ignoreCase : bool) (r : regex) (st : mstate)
    (k : Continuation) {struct r} : option mstate :=
  match r with
  | Empty => k st
  | Char c =>
      match after st with
      | x :: rest => if charMatches ignoreCase c x then k (step st x rest) else None
      | [] => None
      end
  | Class p =>
      match after st with
      | x :: rest => if p x then k (step st x rest) else None
      | [] => None
      end
  | Seq r1 r2 => rmatch ignoreCase r1 st (fun st' => rmatch ignoreCase r2 st' k)
  | Alt r1 r2 =>
      match rmatch ignoreCase r1 st k with
      | Some e => Some e
      | None => rmatch ignoreCase r2 st k
      end
  | Star r' => starLoop (rmatch ignoreCase r') k (List.length (after st)) st
  | Group n r' =>
      rmatch ignoreCase r' st (fun st' =>
        k (MState (before st') (after st')
             ((n, firstn (List.length (after st) - List.length (after st')) (after st))
                :: caps st')))
  | Bol => match before st with [] => k st | _ :: _ => None end
  | WordBoundary =>
      if xorb (isWordAt (before st)) (isWordAt (after st)) then k st else None
  end.

(** One attempt at the current position. *)
Definition matchHere (ignoreCase : bool) (r : regex)
    (bef aft : list ascii) : option mstate :=
  rmatch ignoreCase r (MState bef aft []) (fun st => Some st).

(** [RegExpBuiltinExec] without the [g] and [y] flags: the first position,
    from the left, at which an attempt succeeds.  The result is the state at
    the start of the match and the state at its end. *)
Fixpoint execFrom (ignoreCase : bool) (r : regex)
    (bef aft : list ascii) : option (mstate * mstate) :=
  match matchHere ignoreCase r bef aft with
  | Some e => Some (MState bef aft [], e)
  | None =>
      match aft with
      | [] => None
      | c :: aft' => execFrom ignoreCase r (c :: bef) aft'
      end
  end.

Definition matched (st e : mstate) : list ascii :=
  firstn (List.length (after st) - List.length (after e)) (after st).

(** [re.test(s)] *)
Definition test (ignoreCase : bool) (r : regex) (s : string) : bool :=
  match execFrom ignoreCase r [] (chars s) with
  | Some _ => true
  | None => false
  end.

(** [s.match(re)[0]] for a regular expression without the [g] flag; [None]
    is the [null] of a failed match. *)
Definition match0 (ignoreCase : bool) (r : regex) (s : string) : option string :=
  match execFrom ignoreCase r [] (chars s) with
  | Some (st, e) => Some (str (matched st e))
  | None => None
  end.

(** A replacement template: literal text and [$n] references. *)
Inductive tplItem : Type :=
| TLit (l : list ascii)
| TGroup (n : nat).

Fixpoint capture (n : nat) (cs : list (nat * list ascii)) : list ascii :=
  match cs with
  | [] => []
  | (m, v) :: cs' => if n =? m then v else capture n cs'
  end.

Definition expand (tpl : list tplItem) (e : mstate) : list ascii :=
  flat_map (fun it => match it with
                      | TLit l => l
                      | TGroup n => capture n (caps e)
                      end) tpl.

(** [s.replace(re, tpl)] for a regular expression with the [g] flag: the
    matches are found from left to right, each search starting where the
    previous match ended (one character further after an empty match); the
    text between the matches is kept. *)
Fixpoint replaceLoop (ignoreCase : bool) (r : regex) (tpl : list tplItem)
    (fuel : nat) (bef aft : list ascii) : list ascii :=
  match fuel with
  | O => aft
  | S fuel' =>
      let skip :=
        match aft with
        | [] => []
        | c :: aft' => c :: replaceLoop ignoreCase r tpl fuel' (c :: bef) aft'
        end in
      match matchHere ignoreCase r bef aft with
      | Some e =>
          expand tpl e ++
          (if List.length (after e) <? List.length aft
           then replaceLoop ignoreCase r tpl fuel' (before e) (after e)
           else skip)
      | None => skip
      end
  end.

Definition replaceAll (ignoreCase : bool) (r : regex) (tpl : list tplItem)
    (s : string) : string :=
  str (replaceLoop ignoreCase r tpl (S (String.length s)) [] (chars s)).

End Regex.

(** ** Data model *)

Import JsString Regex.

(** A JavaScript [number]. *)
Definition number : Type := float.

(** The values [JSON.parse] builds. *)
Inductive json : Type :=
| JNull
| JBool (b : bool)
| JNum (n : number)
| JStr (s : string)
| JArr (items : list json)
| JObj (fields : list (string * json)).

(** A value read from a property: [None] is [undefined]. *)
Definition jsval : Type := option json.

(** [interface TranscriptSegment] *)
Record TranscriptSegment : Type := {
  ts_start : number;
  ts_end : number;
  ts_text : string
}.

(** [interface CleanedSegment].  The records built from the reply of the
    language model hold whatever the reply holds, so each field is a
    [jsval]; an absent key is [None]. *)
Record CleanedSegment : Type := {
  cs_start : jsval;
  cs_end : jsval;
  cs_originalText : jsval;
  cs_cleanedText : jsval
}.

(** ** Step 4: the local cleaning, [simpleCleanTranscript] *)

Definition fillerWords : list string :=
  [ "um"; "uh"; "ah"; "er"; "like"; "you know"; "so"; "well";
    "actually"; "basically"; "literally"; "right"; "okay"; "alright";
    "kind of"; "sort of"; "i mean"; "you see"; "let me see" ].

(** [new RegExp(`\\b${filler}\\b`, 'gi')] *)
Definition fillerRegex (filler : string) : regex :=
  Seq WordBoundary (Seq (Lit (chars filler)) WordBoundary).

(** [fillerWords.forEach(filler => { cleanedText = cleanedText.replace(regex, '') })] *)
Definition removeFillers (text : string) : string :=
  fold_left (fun cleanedText filler =>
               replaceAll true (fillerRegex filler) [] cleanedText)
            fillerWords text.

(** [/\s+/g] *)
Definition spacesRegex : regex := Plus (Class isSpace).

Definition isPunct (c : ascii) : bool :=
  Ascii.eqb c "," || Ascii.eqb c "." || Ascii.eqb c "!" || Ascii.eqb c "?".

(** [/\s+([,.!?])/g] *)
Definition spaceBeforePunctRegex : regex :=
  Seq (Plus (Class isSpace)) (Group 1 (Class isPunct)).

(** The body of the [map] callback, on the text of one segment. *)
Definition simpleCleanText (text : string) : string :=
  let cleanedText := toLowerCase text in
  let cleanedText := removeFillers cleanedText in
  let cleanedText :=
    trim (replaceAll false spaceBeforePunctRegex [TGroup 1]
            (replaceAll false spacesRegex [TLit [" "%char]] cleanedText)) in
  (toUpperCase (charAt0 cleanedText) ++ slice1 cleanedText)%string.

Definition simpleCleanSegment (segment : TranscriptSegment) : CleanedSegment :=
  {| cs_start := Some (JNum (ts_start segment));
     cs_end := Some (JNum (ts_end segment));
     cs_originalText := Some (JStr (ts_text segment));
     cs_cleanedText := Some (JStr (simpleCleanText (ts_text segment))) |}.

Definition simpleCleanTranscript (segments : list TranscriptSegment)
  : list CleanedSegment :=
  map simpleCleanSegment segments.


(** ** Exceptions, effects and the host *)

(** The values thrown in the route.  The wording of the messages of the
    engine's own [TypeError]s and [SyntaxError]s is only ever written to the
    console. *)
Inductive thrown : Type :=
| JsError (message : string)
    (* an Error object: [new Error(message)], a TypeError, a SyntaxError *)
| AxiosError (message : string) (responseMessage : option string)
    (* a rejected axios call; [responseMessage] is [error.response?.data?.message] *)
| NonError.
    (* a thrown value that is not an Error object (and not null or undefined) *)

(** [err instanceof Error ? err.message : 'Unknown error occurred'] *)
Definition errorText (err : thrown) : string :=
  match err with
  | JsError message => message
  | AxiosError message _ => message
  | NonError => "Unknown error occurred"
  end.

Inductive res (A : Type) : Type :=
| Ret (a : A)
| Throw (e : thrown).
Arguments Ret {A} a.
Arguments Throw {A} e.

(** What can be observed of one request besides its response. *)
Inductive event : Type :=
| Ytdl (youtubeUrl : string)                        (* the audio stream is opened *)
| DeepgramPost (audio : list byte)                  (* POST to api.deepgram.com *)
| GeminiPost (segments : list TranscriptSegment)    (* POST to generativelanguage.googleapis.com *)
| Log (line : string)                               (* console.log *)
| LogError (label : string) (err : thrown).         (* console.error(label, error) *)

Definition isExternalCall (e : event) : bool :=
  match e with
  | Ytdl _ | DeepgramPost _ | GeminiPost _ => true
  | Log _ | LogError _ _ => false
  end.

Definition trace : Type := list event.

(** An [async] computation. *)
Definition M (A : Type) : Type := trace -> res A * trace.

Definition ret {A} (a : A) : M A := fun tr => (Ret a, tr).
Definition throw {A} (e : thrown) : M A := fun tr => (Throw e, tr).
Definition bind {A B} (m : M A) (f : A -> M B) : M B :=
  fun tr => match m tr with
            | (Ret a, tr') => f a tr'
            | (Throw e, tr') => (Throw e, tr')
            end.
Definition emit (e : event) : M unit := fun tr => (Ret tt, tr ++ [e]).
Definition liftRes {A} (r : res A) : M A := fun tr => (r, tr).

(** [try { body } catch (error) { handler }] *)
Definition tryCatch {A} (body : M A) (handler : thrown -> M A) : M A :=
  fun tr => match body tr with
            | (Ret a, tr') => (Ret a, tr')
            | (Throw e, tr') => handler e tr'
            end.

Notation "x <- c1 ;; c2" := (bind c1 (fun x => c2))
  (at level 61, c1 at next level, right associativity).
Notation "c1 ;; c2" := (bind c1 (fun _ => c2))
  (at level 61, right associativity).

Fixpoint mapRes {A B} (f : A -> res B) (l : list A) : res (list B) :=
  match l with
  | [] => Ret []
  | a :: l' =>
      match f a with
      | Throw e => Throw e
      | Ret b => match mapRes f l' with
                 | Throw e => Throw e
                 | Ret bs => Ret (b :: bs)
                 end
      end
  end.

(** The events of the audio stream returned by [ytdl]. *)
Inductive StreamEvent : Type :=
| Data (chunk : list byte)
| End
| StreamError (error : thrown).

(** One utterance of the transcription and the part of the reply of the
    transcription service that the route reads,
    [transcriptionResult.results.utterances] ([None]: absent). *)
Record Utterance : Type := {
  u_start : number;
  u_end : number;
  u_transcript : string
}.

Record DeepgramData : Type := {
  results_utterances : option (list Utterance)
}.

(** Everything the route obtains from outside its own text. *)
Record Host : Type := {
  (** [JSON.parse]; [None] when it throws a SyntaxError *)
  JSON_parse : string -> option json;
  (** [uuidv4()] *)
  uuidv4 : string;
  (** the events of the stream [ytdl(youtubeUrl, ...)], each with the time,
      in milliseconds after the call, at which it is delivered *)
  ytdl : string -> list (Z * StreamEvent);
  (** the outcome of the POST of the audio to the transcription service *)
  deepgram : list byte -> res DeepgramData;
  (** the outcome of the POST of the prompt built from the segments: the
      call is rejected, or a reply arrives, in which
      [response.data.candidates[0].content.parts[0].text] is a string
      ([Some]) or is not ([None]) *)
  gemini : list TranscriptSegment -> res (option string);
  (** [process.env.DEEPGRAM_API_KEY], [process.env.GEMINI_API_KEY] *)
  DEEPGRAM_API_KEY : option string;
  GEMINI_API_KEY : option string
}.

(** [!x] for a value that is a string or undefined. *)
Definition falsy (x : option string) : bool :=
  match x with
  | None => true
  | Some s => String.eqb s EmptyString
  end.

(** Decimal rendering of a length, as in a template literal. *)
Definition showNat (n : nat) : string := NilZero.string_of_uint (Nat.to_uint n).

(** [(bytes / 1024 / 1024).toFixed(2)]: the division by 2^20 is exact, and
    [toFixed(2)] picks the integer n with n/100 nearest to it, the larger one
    on a tie. *)
Definition toFixed2MB (bytes : nat) : string :=
  let n := N.to_nat ((200 * N.of_nat bytes + 1048576) / 2097152)%N in
  let frac := n mod 100 in
  (showNat (n / 100) ++ "." ++ showNat (frac / 10) ++ showNat (frac mod 10))%string.

(** ** Step 1: the audio download, [downloadAudioToBuffer] *)

(** [setTimeout(..., 90000)] *)
Definition downloadTimeoutMs : Z := 90000.

(** The promise of [downloadAudioToBuffer], followed until it settles.  The
    stream events are delivered in order to the three handlers: ['data']
    pushes the chunk, ['end'] resolves with the concatenated chunks,
    ['error'] rejects with the error.  The timer callback, 90000 ms after
    the call, destroys the stream and rejects; it runs before any stream
    event delivered at that time or later, and in any case once the stream
    has nothing more to deliver.  What happens after the promise has settled
    does not change it.  The result is the time at which the promise
    settled, the console lines written until then, and the outcome. *)
Fixpoint awaitDownload (events : list (Z * StreamEvent))
    (chunks : list (list byte)) : Z * list event * res (list byte) :=
  match events with
  | [] =>
      (downloadTimeoutMs, [],
       Throw (JsError "Audio download timeout after 90 seconds"))
  | (t, ev) :: events' =>
      if (downloadTimeoutMs <=? t)%Z then
        (downloadTimeoutMs, [],
         Throw (JsError "Audio download timeout after 90 seconds"))
      else
        match ev with
        | Data chunk => awaitDownload events' (chunks ++ [chunk])
        | End =>
            let audioBuffer := List.concat chunks in
            (t, [Log ("Audio buffer size: " ++ showNat (List.length audioBuffer)
                        ++ " bytes")%string],
             Ret audioBuffer)
        | StreamError error =>
            (t, [LogError "Stream error:" error], Throw error)
        end
  end.

Definition downloadSettleTime (h : Host) (youtubeUrl : string) : Z :=
  fst (fst (awaitDownload (ytdl h youtubeUrl) [])).

Definition downloadAudioToBuffer (h : Host) (youtubeUrl : string)
  : M (list byte) :=
  fun tr =>
    let '(_, lines, outcome) := awaitDownload (ytdl h youtubeUrl) [] in
    (outcome, tr ++ [Ytdl youtubeUrl] ++ lines).

(** ** Step 2: the transcription, [transcribeWithDeepgram] *)

(** [error.response?.data?.message || error.message], interpolated *)
Definition deepgramErrorDetail (error : thrown) : string :=
  match error with
  | AxiosError message (Some responseMessage) =>
      if String.eqb responseMessage EmptyString then message else responseMessage
  | AxiosError message None => message
  | JsError message => message
  | NonError => "undefined"
  end.

Definition transcribeWithDeepgram (h : Host) (audioBuffer : list byte)
  : M DeepgramData :=
  tryCatch
    (emit (Log "Sending audio to Deepgram...") ;;
     emit (DeepgramPost audioBuffer) ;;
     liftRes (deepgram h audioBuffer))
    (fun error =>
       emit (LogError "Deepgram API error:" error) ;;
       throw (JsError ("Deepgram transcription failed: "
                         ++ deepgramErrorDetail error)%string)).

(** ** Step 3: the cleaning by the language model, [cleanTranscriptWithGemini] *)

(** [/\[[\s\S]*\]/] *)
Definition jsonArrayRegex : regex :=
  Seq (Char "[") (Seq (Star (Class (fun c => isSpace c || negb (isSpace c))))
                      (Char "]")).

(** [geminiResponse.match(/\[[\s\S]*\]/)]: [jsonMatch[0]], or [None] for null *)
Definition jsonMatch (geminiResponse : string) : option string :=
  match0 false jsonArrayRegex geminiResponse.

(** Reading a property that no prototype defines: the value the last
    occurrence of the key was parsed to, for an object; undefined for any
    other value than null. *)
Fixpoint lookupLast (key : string) (fields : list (string * json)) : jsval :=
  match fields with
  | [] => None
  | (k, v) :: fields' =>
      match lookupLast key fields' with
      | Some v' => Some v'
      | None => if String.eqb k key then Some v else None
      end
  end.

Definition getProp (key : string) (v : json) : jsval :=
  match v with
  | JObj fields => lookupLast key fields
  | _ => None
  end.

(** The callback of [cleanedSegments.map]: reading a property of null
    throws. *)
Definition cleanedOfReply (segment : json) : res CleanedSegment :=
  match segment with
  | JNull => Throw (JsError "Cannot read properties of null (reading 'start')")
  | _ =>
      Ret {| cs_start := getProp "start" segment;
             cs_end := getProp "end" segment;
             cs_originalText := None;
             cs_cleanedText := getProp "cleanedText" segment |}
  end.

(** [cleanedSegments.map(...)]: only an array has a [map] method. *)
Definition mapReply (cleanedSegments : json) : res (list CleanedSegment) :=
  match cleanedSegments with
  | JArr items => mapRes cleanedOfReply items
  | _ => Throw (JsError "cleanedSegments.map is not a function")
  end.

(** The [try] block.  The prompt is a fixed text around the JSON rendering
    of the numbered segments; the event records the segments. *)
Definition geminiAttempt (h : Host) (segments : list TranscriptSegment)
  : M (list CleanedSegment) :=
  emit (Log "Sending request to Gemini...") ;;
  emit (GeminiPost segments) ;;
  text <- liftRes (gemini h segments) ;;
  geminiResponse <-
    match text with
    | Some s => ret s
    | None => throw (JsError "Cannot read properties of undefined (reading 'match')")
    end ;;
  jsonMatch0 <-
    match jsonMatch geminiResponse with
    | Some m => ret m
    | None => throw (JsError "Could not extract JSON from Gemini response")
    end ;;
  cleanedSegments <-
    match JSON_parse h jsonMatch0 with
    | Some v => ret v
    | None => throw (JsError "Unexpected token in JSON")
    end ;;
  liftRes (mapReply cleanedSegments).

(** The fallback of the [catch] block: the segments as they are. *)
Definition uncleanedSegment (seg : TranscriptSegment) : CleanedSegment :=
  {| cs_start := Some (JNum (ts_start seg));
     cs_end := Some (JNum (ts_end seg));
     cs_originalText := None;
     cs_cleanedText := Some (JStr (ts_text seg)) |}.

Definition cleanTranscriptWithGemini (h : Host) (segments : list TranscriptSegment)
  : M (list CleanedSegment) :=
  tryCatch (geminiAttempt h segments)
    (fun error =>
       emit (LogError "Error cleaning transcript with Gemini:" error) ;;
       ret (map uncleanedSegment segments)).

(** ** The pipeline, [processYouTubeTranscript] *)

(** The [data] of a successful result. *)
Record ResultData : Type := {
  videoUrl : string;
  cleanedSegments : list CleanedSegment;
  totalDuration : number;
  segmentCount : nat;
  audioSize : string
}.

(** The object returned by the pipeline and sent by the handler:
    [{ success: true, data }] or [{ success: false, error, requestId }]. *)
Inductive Result : Type :=
| Success (data : ResultData)
| Failure (error : string) (requestId : option string).

Definition success (r : Result) : bool :=
  match r with
  | Success _ => true
  | Failure _ _ => false
  end.

Definition segmentOfUtterance (utterance : Utterance) : TranscriptSegment :=
  {| ts_start := u_start utterance;
     ts_end := u_end utterance;
     ts_text := u_transcript utterance |}.

(** [segments.length > 0 ? segments[segments.length - 1].end : 0] *)
Definition totalDurationOf (segments : list TranscriptSegment) : number :=
  if 0 <? List.length segments
  then match nth_error segments (List.length segments - 1) with
       | Some segment => ts_end segment
       | None => nan      (* not reached: the index is in range *)
       end
  else 0%float.

Definition tagged (requestId line : string) : string :=
  ("[" ++ requestId ++ "] " ++ line)%string.

Definition processYouTubeTranscript (h : Host) (youtubeUrl : string) : M Result :=
  let requestId := substring 0 8 (uuidv4 h) in
  emit (Log (tagged requestId ("Starting transcript processing for: " ++ youtubeUrl))) ;;
  tryCatch
    (emit (Log (tagged requestId "Downloading audio to memory...")) ;;
     audioBuffer <- downloadAudioToBuffer h youtubeUrl ;;
     if List.length audioBuffer =? 0
     then throw (JsError "Downloaded audio buffer is empty")
     else
       emit (Log (tagged requestId
                    ("Audio downloaded successfully, size: "
                       ++ toFixed2MB (List.length audioBuffer) ++ "MB"))) ;;
       emit (Log (tagged requestId "Transcribing with Deepgram...")) ;;
       transcriptionResult <- transcribeWithDeepgram h audioBuffer ;;
       match results_utterances transcriptionResult with
       | None | Some [] => throw (JsError "No utterances detected in the transcript.")
       | Some utterances =>
           let segments := map segmentOfUtterance utterances in
           emit (Log (tagged requestId
                        ("Found " ++ showNat (List.length segments)
                           ++ " transcript segments"))) ;;
           emit (Log (tagged requestId "Cleaning transcript with Gemini AI...")) ;;
           cleaned <-
             tryCatch (cleanTranscriptWithGemini h segments)
               (fun _ =>
                  emit (Log (tagged requestId
                               "Gemini cleaning failed, using simple cleaning...")) ;;
                  ret (simpleCleanTranscript segments)) ;;
           emit (Log (tagged requestId "Transcript processing completed successfully")) ;;
           ret (Success
                  {| videoUrl := youtubeUrl;
                     cleanedSegments := cleaned;
                     totalDuration := totalDurationOf segments;
                     segmentCount := List.length segments;
                     audioSize := (toFixed2MB (List.length audioBuffer) ++ "MB")%string |})
       end)
    (fun err =>
       emit (LogError (tagged requestId "Error:") err) ;;
       ret (Failure (errorText err) (Some requestId))).

(** ** The handler, [GET] *)

(** [/^(https?:\/\/)?(www\.)?(youtube\.com\/(watch\?v=|embed\/)|youtu\.be\/)[\w-]+/] *)
Definition LitS (s : string) : regex := Lit (chars s).

Definition youtubeRegex : regex :=
  Seq Bol
 (Seq (Opt (Group 1 (Seq (LitS "http") (Seq (Opt (Char "s")) (LitS "://")))))
 (Seq (Opt (Group 2 (LitS "www.")))
 (Seq (Group 3 (Alt (Seq (LitS "youtube.com/")
                         (Group 4 (Alt (LitS "watch?v=") (LitS "embed/"))))
                    (LitS "youtu.be/")))
      (Plus (Class (fun c => isWordChar c || Ascii.eqb c "-")))))).

(** What the handler reads of the request: [searchParams.get('url')]. *)
Record Request : Type := {
  searchParams_url : option string
}.

(** [NextResponse.json(body, { status })] *)
Record Response : Type := {
  body : Result;
  status : nat
}.

(** The [stack] that the last [catch] adds to the body in development mode
    is left out of [Result]. *)
Definition GET (h : Host) (request : Request) : M Response :=
  tryCatch
    (let youtubeUrl := searchParams_url request in
     match youtubeUrl with
     | None =>
         ret {| body := Failure "YouTube URL is required. Use ?url=<youtube_url>" None;
                status := 400 |}
     | Some youtubeUrl =>
         if String.eqb youtubeUrl EmptyString then
           ret {| body := Failure "YouTube URL is required. Use ?url=<youtube_url>" None;
                  status := 400 |}
         else if negb (test false youtubeRegex youtubeUrl) then
           ret {| body := Failure "Invalid YouTube URL format" None; status := 400 |}
         else if falsy (DEEPGRAM_API_KEY h) then
           ret {| body := Failure "DEEPGRAM_API_KEY environment variable is not set" None;
                  status := 500 |}
         else if falsy (GEMINI_API_KEY h) then
           ret {| body := Failure "GEMINI_API_KEY environment variable is not set" None;
                  status := 500 |}
         else
           emit (Log ("Processing request for: " ++ youtubeUrl)) ;;
           result <- processYouTubeTranscript h youtubeUrl ;;
           if success result
           then ret {| body := result; status := 200 |}
           else ret {| body := result; status := 500 |}
     end)
    (fun error =>
       emit (LogError "API Route Error:" error) ;;
       ret {| body := Failure (match error with
                               | NonError => "Internal server error"
                               | _ => errorText error
                               end) None;
              status := 500 |}).

(** ** A reference [JSON.parse]

    The statements below hold for whatever [JSON.parse] the host has.  The
    closed examples run the route with this parser of the JSON grammar
    (ECMA-404).  A decimal literal is rounded to the nearest binary64 number,
    ties to even.  A [\u] escape above 00FF has no counterpart among the
    code units of [string] and is refused. *)

Module JsonRef.

Definition dquote : ascii := "034"%char.

Definition isJsonWs (c : ascii) : bool :=
  let n := code c in (n =? 32) || (n =? 9) || (n =? 10) || (n =? 13).

Fixpoint skipWs (l : list ascii) : list ascii :=
  match l with
  | c :: l' => if isJsonWs c then skipWs l' else l
  | [] => []
  end.

(** The binary64 number nearest to [m * 10^e], with the sign [neg]. *)
Definition floatOfDecimal (neg : bool) (m e : Z) : float :=
  SF2Prim
    (match m with
     | Z0 => S754_zero neg
     | _ =>
         if (0 <=? e)%Z
         then binary_normalize prec emax
                (if neg then - (m * 10 ^ e) else m * 10 ^ e)%Z 0%Z neg
         else let '(q, e', l) :=
                SFdiv_core_binary prec emax m 0%Z (10 ^ (- e))%Z 0%Z in
              binary_round_aux prec emax neg q e' l
     end).

Definition digitValue (c : ascii) : Z := Z.of_nat (code c - 48).

(** A maximal run of digits: its value continuing [acc], its length, the rest. *)
Fixpoint digits (l : list ascii) (acc : Z) (n : Z) : Z * Z * list ascii :=
  match l with
  | c :: l' =>
      if isDigit c then digits l' (10 * acc + digitValue c)%Z (n + 1)%Z
      else (acc, n, l)
  | [] => (acc, n, [])
  end.

Definition parseExponent (l : list ascii) : option (Z * list ascii) :=
  match l with
  | c :: l' =>
      if Ascii.eqb c "e" || Ascii.eqb c "E" then
        let '(neg, l'') :=
          match l' with
          | s :: r => if Ascii.eqb s "-" then (true, r)
                      else if Ascii.eqb s "+" then (false, r) else (false, l')
          | [] => (false, l')
          end in
        let '(v, n, rest) := digits l'' 0%Z 0%Z in
        if (n =? 0)%Z then None
        else Some (if neg then (- v)%Z else v, rest)
      else Some (0%Z, l)
  | [] => Some (0%Z, l)
  end.

Definition parseNumber (l : list ascii) : option (float * list ascii) :=
  let '(neg, l1) :=
    match l with
    | c :: r => if Ascii.eqb c "-" then (true, r) else (false, l)
    | [] => (false, l)
    end in
  let '(ip, n, l2) := digits l1 0%Z 0%Z in
  let leadingZero :=
    match l1 with
    | c :: _ => Ascii.eqb c "0"
    | [] => false
    end in
  if (n =? 0)%Z || (leadingZero && negb (n =? 1)%Z) then None
  else
    let frac :=
      match l2 with
      | c :: r =>
          if Ascii.eqb c "." then
            let '(m, k, l3) := digits r ip 0%Z in
            if (k =? 0)%Z then None else Some (m, k, l3)
          else Some (ip, 0%Z, l2)
      | [] => Some (ip, 0%Z, l2)
      end in
    match frac with
    | None => None
    | Some (m, k, l3) =>
        match parseExponent l3 with
        | None => None
        | Some (e, rest) => Some (floatOfDecimal neg m (e - k), rest)
        end
    end.

Definition hexValue (c : ascii) : option nat :=
  let n := code c in
  if isDigit c then Some (n - 48)
  else if (97 <=? n) && (n <=? 102) then Some (n - 87)
  else if (65 <=? n) && (n <=? 70) then Some (n - 55)
  else None.

(** The characters of a string literal after its opening quote, in reverse
    in [acc]. *)
Fixpoint parseChars (l : list ascii) (acc : list ascii)
  : option (string * list ascii) :=
  match l with
  | [] => None
  | c :: l' =>
      if Ascii.eqb c dquote then Some (str (rev acc), l')
      else if Ascii.eqb c "\" then
        match l' with
        | e :: l'' =>
            if Ascii.eqb e "u" then
              match l'' with
              | a :: b :: c' :: d :: rest =>
                  match hexValue a, hexValue b, hexValue c', hexValue d with
                  | Some 0, Some 0, Some x, Some y =>
                      parseChars rest (ascii_of_nat (16 * x + y) :: acc)
                  | _, _, _, _ => None
                  end
              | _ => None
              end
            else
              let simple (x : ascii) := parseChars l'' (x :: acc) in
              if Ascii.eqb e dquote then simple dquote
              else if Ascii.eqb e "\" then simple "\"%char
              else if Ascii.eqb e "/" then simple "/"%char
              else if Ascii.eqb e "b" then simple (ascii_of_nat 8)
              else if Ascii.eqb e "f" then simple (ascii_of_nat 12)
              else if Ascii.eqb e "n" then simple (ascii_of_nat 10)
              else if Ascii.eqb e "r" then simple (ascii_of_nat 13)
              else if Ascii.eqb e "t" then simple (ascii_of_nat 9)
              else None
        | [] => None
        end
      else if code c <? 32 then None
      else parseChars l' (c :: acc)
  end.

Definition startsWith (p : string) (l : list ascii) : option (list ascii) :=
  let n := String.length p in
  if String.eqb (str (firstn n l)) p then Some (skipn n l) else None.

Fixpoint parseValue (fuel : nat) (l : list ascii) : option (json * list ascii) :=
  match fuel with
  | O => None
  | S fuel' =>
      match skipWs l with
      | [] => None
      | c :: r =>
          if Ascii.eqb c "[" then
            match skipWs r with
            | c' :: r' =>
                if Ascii.eqb c' "]" then Some (JArr [], r')
                else match parseElements fuel' r with
                     | Some (items, rest) => Some (JArr items, rest)
                     | None => None
                     end
            | [] => None
            end
          else if Ascii.eqb c "{" then
            match skipWs r with
            | c' :: r' =>
                if Ascii.eqb c' "}" then Some (JObj [], r')
                else match parseMembers fuel' r with
                     | Some (fields, rest) => Some (JObj fields, rest)
                     | None => None
                     end
            | [] => None
            end
          else if Ascii.eqb c dquote then
            match parseChars r [] with
            | Some (s, rest) => Some (JStr s, rest)
            | None => None
            end
          else
            match startsWith "null" (c :: r), startsWith "true" (c :: r),
                  startsWith "false" (c :: r) with
            | Some rest, _, _ => Some (JNull, rest)
            | _, Some rest, _ => Some (JBool true, rest)
            | _, _, Some rest => Some (JBool false, rest)
            | None, None, None =>
                match parseNumber (c :: r) with
                | Some (n, rest) => Some (JNum n, rest)
                | None => None
                end
            end
      end
  end
with parseElements (fuel : nat) (l : list ascii)
  : option (list json * list ascii) :=
  match fuel with
  | O => None
  | S fuel' =>
      match parseValue fuel' l with
      | None => None
      | Some (v, r) =>
          match skipWs r with
          | c :: r' =>
              if Ascii.eqb c "," then
                match parseElements fuel' r' with
                | Some (vs, rest) => Some (v :: vs, rest)
                | None => None
                end
              else if Ascii.eqb c "]" then Some ([v], r')
              else None
          | [] => None
          end
      end
  end
with parseMembers (fuel : nat) (l : list ascii)
  : option (list (string * json) * list ascii) :=
  match fuel with
  | O => None
  | S fuel' =>
      match skipWs l with
      | q :: r0 =>
          if Ascii.eqb q dquote then
            match parseChars r0 [] with
            | None => None
            | Some (key, r1) =>
                match skipWs r1 with
                | colon :: r2 =>
                    if Ascii.eqb colon ":" then
                      match parseValue fuel' r2 with
                      | None => None
                      | Some (v, r) =>
                          match skipWs r with
                          | c :: r' =>
                              if Ascii.eqb c "," then
                                match parseMembers fuel' r' with
                                | Some (fs, rest) => Some ((key, v) :: fs, rest)
                                | None => None
                                end
                              else if Ascii.eqb c "}" then Some ([(key, v)], r')
                              else None
                          | [] => None
                          end
                      end
                    else None
                | [] => None
                end
            end
          else None
      | [] => None
      end
  end.

Definition parse (text : string) : option json :=
  match parseValue (2 * String.length text + 3) (chars text) with
  | Some (v, rest) =>
      match skipWs rest with
      | [] => Some v
      | _ :: _ => None
      end
  | None => None
  end.

End JsonRef.

(** ** Vocabulary of the statements *)

(** The timestamps of the cleaned segments, of the raw segments, and of the
    elements of a parsed reply, in order. *)
Definition timestamps (cleaned : list CleanedSegment) : list (jsval * jsval) :=
  map (fun c => (cs_start c, cs_end c)) cleaned.

Definition rawTimestamps (segments : list TranscriptSegment)
  : list (jsval * jsval) :=
  map (fun s => (Some (JNum (ts_start s)), Some (JNum (ts_end s)))) segments.

Definition replyTimestamps (items : list json) : list (jsval * jsval) :=
  map (fun v => (getProp "start" v, getProp "end" v)) items.

(** The outcome of the [try] block of [cleanTranscriptWithGemini], read off
    the host. *)
Definition attemptOutcome (h : Host) (segments : list TranscriptSegment)
  : res (list CleanedSegment) :=
  match gemini h segments with
  | Throw e => Throw e
  | Ret None => Throw (JsError "Cannot read properties of undefined (reading 'match')")
  | Ret (Some text) =>
      match jsonMatch text with
      | None => Throw (JsError "Could not extract JSON from Gemini response")
      | Some m =>
          match JSON_parse h m with
          | None => Throw (JsError "Unexpected token in JSON")
          | Some v => mapReply v
          end
      end
  end.

(** The reply of the language model held a bracketed text that parsed to
    the array [items], and every element could be read. *)
Definition replyParsedTo (h : Host) (segments : list TranscriptSegment)
    (items : list json) (out : list CleanedSegment) : Prop :=
  exists text m,
    gemini h segments = Ret (Some text) /\
    jsonMatch text = Some m /\
    JSON_parse h m = Some (JArr items) /\
    mapRes cleanedOfReply items = Ret out.

(** Some filler phrase occurs in [s] as a word of its own. *)
Definition hasStandaloneFiller (s : string) : bool :=
  existsb (fun filler => test true (fillerRegex filler) s) fillerWords.

(** Two white-space characters in a row. *)
Definition hasDoubleSpace (s : string) : bool :=
  test false (Seq (Class isSpace) (Class isSpace)) s.

(** White space right before one of [, . ! ?]. *)
Definition hasSpaceBeforePunct (s : string) : bool :=
  test false spaceBeforePunctRegex s.

Definition startsCapitalized (s : string) : bool :=
  match s with
  | String c _ => isUpper c
  | EmptyString => false
  end.

(** The extraction as the specification words it: a scan from the first
    opening bracket to the bracket that closes it, counting the nesting. *)
Fixpoint spec_scanToMatching (depth : nat) (l : list ascii) : option (list ascii) :=
  match l with
  | [] => None
  | c :: l' =>
      if Ascii.eqb c "[" then option_map (cons c) (spec_scanToMatching (S depth) l')
      else if Ascii.eqb c "]" then
        match depth with
        | O => Some [c]
        | S d => option_map (cons c) (spec_scanToMatching d l')
        end
      else option_map (cons c) (spec_scanToMatching depth l')
  end.

Fixpoint spec_fromFirstBracket (l : list ascii) : option (list ascii) :=
  match l with
  | [] => None
  | c :: l' =>
      if Ascii.eqb c "[" then option_map (cons c) (spec_scanToMatching 0 l')
      else spec_fromFirstBracket l'
  end.

Definition spec_balancedArray (text : string) : option string :=
  option_map str (spec_fromFirstBracket (chars text)).

(** No occurrence of the character [c] in [s]. *)
Definition lacks (c : ascii) (s : string) : bool :=
  forallb (fun x => negb (Ascii.eqb x c)) (chars s).

(** The regular expression has no [\b]: its matches do not depend on what
    follows them. *)
Fixpoint boundaryFree (r : regex) : bool :=
  match r with
  | Empty | Char _ | Class _ | Bol => true
  | Seq r1 r2 | Alt r1 r2 => boundaryFree r1 && boundaryFree r2
  | Star r' | Group _ r' => boundaryFree r'
  | WordBoundary => false
  end.

(** Wherever [k] accepts, [k'] accepts with [s] appended to the remaining
    input, whatever the captures. *)
Definition continuationExtends (s : list ascii) (k k' : Continuation) : Prop :=
  forall b a c c', k (MState b a c) <> None -> k' (MState b (a ++ s) c') <> None.

(** The events of one run, from an empty trace. *)
Definition eventsOf {A} (m : M A) : trace := snd (m []).

(** The console line of the [catch] block around the call of
    [cleanTranscriptWithGemini], which leads to [simpleCleanTranscript]. *)
Definition simpleCleaningLine (h : Host) : string :=
  tagged (substring 0 8 (uuidv4 h))
    "Gemini cleaning failed, using simple cleaning...".

Definition isSimpleCleaningLine (h : Host) (e : event) : bool :=
  match e with
  | Log line => String.eqb line (simpleCleaningLine h)
  | _ => false
  end.

(** ** Example hosts *)

Definition newline : string := String (ascii_of_nat 10) EmptyString.

(** The JSON texts of the examples are written with single quotes. *)
Definition dq (s : string) : string :=
  str (map (fun c => if Ascii.eqb c "'" then JsonRef.dquote else c) (chars s)).

Definition exampleHost (stream : list (Z * StreamEvent))
    (transcription : res DeepgramData) (reply : res (option string)) : Host :=
  {| JSON_parse := JsonRef.parse;
     uuidv4 := "1b9d6bcd-bbfd-4b2d-9b5d-ab8dfbbd4bed";
     ytdl := fun _ => stream;
     deepgram := fun _ => transcription;
     gemini := fun _ => reply;
     DEEPGRAM_API_KEY := Some "dg-key";
     GEMINI_API_KEY := Some "gm-key" |}.

Definition exampleStream : list (Z * StreamEvent) :=
  [ (120%Z, Data [x49; x44; x33]); (340%Z, Data [x04; x00]); (500%Z, End) ].

Definition exampleUtterances : list Utterance :=
  [ {| u_start := 0%float; u_end := 2.5%float; u_transcript := "um so like I think, you know, it works" |};
    {| u_start := 2.5%float; u_end := 6.5%float; u_transcript := "Well, it is basically done" |} ].

Definition exampleSegments : list TranscriptSegment :=
  map segmentOfUtterance exampleUtterances.

Definition exampleTranscription : res DeepgramData :=
  Ret {| results_utterances := Some exampleUtterances |}.

(** A reply wrapped in prose, with the count and the timestamps kept. *)
Definition wrappedPrefix : string := ("Here is the result:" ++ newline)%string.

Definition wrappedBody : string :=
  dq ("{'id':1,'start':0,'end':2.5,'cleanedText':'I think it works'}," ++
      "{'id':2,'start':2.5,'end':6.5,'cleanedText':'It is done'}").

Definition wrappedSuffix : string := (newline ++ "Hope this helps")%string.

Definition wrappedReply : string :=
  (wrappedPrefix ++ "[" ++ wrappedBody ++ "]" ++ wrappedSuffix)%string.

(** A reply with two arrays. *)
Definition twoArraysReply : string := "[1] and [2]".

(** A reply that merges the two segments into one. *)
Definition mergedReply : string :=
  dq "[{'id':1,'start':0,'end':7,'cleanedText':'I think it works. It is done'}]".

Definition youtubeWatchUrl : string := "https://www.youtube.com/watch?v=dQw4w9WgXcQ".

(** The call to the language model times out. *)
Definition rejectingHost : Host :=
  exampleHost exampleStream exampleTranscription
    (Throw (AxiosError "timeout of 80000ms exceeded" None)).

(** The language model answers with the empty array. *)
Definition emptyArrayHost : Host :=
  exampleHost exampleStream exampleTranscription (Ret (Some "[]")).

(** The language model merges the segments. *)
Definition mergingHost : Host :=
  exampleHost exampleStream exampleTranscription (Ret (Some mergedReply)).

(** The example segment of the filler removal. *)
Definition fillerExample : string := "um so like I think, you know, it works".

(** The language model wraps its array in prose. *)
Definition wrappingHost : Host :=
  exampleHost exampleStream exampleTranscription (Ret (Some wrappedReply)).

(** The stream stalls after its first chunk: its end comes too late. *)
Definition stalledHost : Host :=
  exampleHost [ (120%Z, Data [x49; x44; x33]); (95000%Z, End) ]
    exampleTranscription (Ret (Some wrappedReply)).

(** The stream reports an error. *)
Definition brokenStreamHost : Host :=
  exampleHost [ (120%Z, Data [x49; x44; x33]);
                (200%Z, StreamError (JsError "Status code: 403")) ]
    exampleTranscription (Ret (Some wrappedReply)).

(** The stream ends without a byte. *)
Definition emptyStreamHost : Host :=
  exampleHost [ (300%Z, End) ] exampleTranscription (Ret (Some wrappedReply)).

(** The transcription finds no utterance. *)
Definition silentHost : Host :=
  exampleHost exampleStream (Ret {| results_utterances := Some [] |})
    (Ret (Some wrappedReply)).

(** The transcription service rejects the call. *)
Definition deepgramDownHost : Host :=
  exampleHost exampleStream
    (Throw (AxiosError "Request failed with status code 401"
              (Some "Invalid credentials")))
    (Ret (Some wrappedReply)).

(** The audio of [exampleStream]. *)
Definition exampleAudio : list byte := [x49; x44; x33; x04; x00].

(** The first eight characters of the uuid of the example hosts. *)
Definition exampleRequestId : string := "1b9d6bcd".

(** The successful result of the pipeline on [wrappingHost]. *)
Definition wrappedResult : ResultData :=
  {| videoUrl := youtubeWatchUrl;
     cleanedSegments :=
       [ {| cs_start := Some (JNum 0%float); cs_end := Some (JNum 2.5%float);
            cs_originalText := None;
            cs_cleanedText := Some (JStr "I think it works") |};
         {| cs_start := Some (JNum 2.5%float); cs_end := Some (JNum 6.5%float);
            cs_originalText := None;
            cs_cleanedText := Some (JStr "It is done") |} ];
     totalDuration := 6.5%float;
     segmentCount := 2;
     audioSize := "0.00MB" |}.

(** ** Vocabulary of the further statements *)

(** The request carries a non-empty [url] that the regular expression
    accepts. *)
Definition hasValidUrl (request : Request) : bool :=
  match searchParams_url request with
  | None => false
  | Some youtubeUrl =>
      negb (String.eqb youtubeUrl EmptyString) && test false youtubeRegex youtubeUrl
  end.

(** The external calls of a run, in order. *)
Definition externalCalls {A} (m : M A) : list event :=
  filter isExternalCall (eventsOf m).

(** A schedule of chunks, each with its delivery time. *)
Definition dataEvents (timed : list (Z * list byte)) : list (Z * StreamEvent) :=
  map (fun tc => (fst tc, Data (snd tc))) timed.

Definition allBefore (limit : Z) (timed : list (Z * list byte)) : bool :=
  forallb (fun tc => (fst tc <? limit)%Z) timed.

(** The environment has no key at all; it has the first key only. *)
Definition noKeysHost : Host :=
  {| JSON_parse := JsonRef.parse;
     uuidv4 := "1b9d6bcd-bbfd-4b2d-9b5d-ab8dfbbd4bed";
     ytdl := fun _ => exampleStream;
     deepgram := fun _ => exampleTranscription;
     gemini := fun _ => Ret (Some wrappedReply);
     DEEPGRAM_API_KEY := None;
     GEMINI_API_KEY := None |}.

Definition noGeminiKeyHost : Host :=
  {| JSON_parse := JsonRef.parse;
     uuidv4 := "1b9d6bcd-bbfd-4b2d-9b5d-ab8dfbbd4bed";
     ytdl := fun _ => exampleStream;
     deepgram := fun _ => exampleTranscription;
     gemini := fun _ => Ret (Some wrappedReply);
     DEEPGRAM_API_KEY := Some "dg-key";
     GEMINI_API_KEY := Some EmptyString |}.

(** What a regular expression matches, without regard to the order in which
    the matcher tries the alternatives: [Matches i r b w a] says that [r]
    matches the text [w] standing between [b] (the text before it, nearest
    character first) and [a] (the text after it). *)
Inductive Matches (i : bool) : regex -> list ascii -> list ascii -> list ascii -> Prop :=
| MEmpty b a : Matches i Empty b [] a
| MChar c x b a : charMatches i c x = true -> Matches i (Char c) b [x] a
| MClass p x b a : p x = true -> Matches i (Class p) b [x] a
| MSeq r1 r2 b w1 w2 a :
    Matches i r1 b w1 (w2 ++ a) ->
    Matches i r2 (rev w1 ++ b) w2 a ->
    Matches i (Seq r1 r2) b (w1 ++ w2) a
| MAltL r1 r2 b w a : Matches i r1 b w a -> Matches i (Alt r1 r2) b w a
| MAltR r1 r2 b w a : Matches i r2 b w a -> Matches i (Alt r1 r2) b w a
| MStarNil r b a : Matches i (Star r) b [] a
| MStarCons r b w1 w2 a :
    w1 <> [] ->
    Matches i r b w1 (w2 ++ a) ->
    Matches i (Star r) (rev w1 ++ b) w2 a ->
    Matches i (Star r) b (w1 ++ w2) a
| MGroup n r b w a : Matches i r b w a -> Matches i (Group n r) b w a
| MBol a : Matches i Bol [] [] a
| MWordBoundary b a :
    xorb (isWordAt b) (isWordAt a) = true -> Matches i WordBoundary b [] a.

(** The continuation accepts at a position, whatever the captures. *)
Definition acceptsAt (k : Continuation) (b a : list ascii) : Prop :=
  forall c, k (MState b a c) <> None.

(** The characters of a video id, [[\w-]]. *)
Definition isIdChar (c : ascii) : bool := isWordChar c || Ascii.eqb c "-".

(** The beginnings that [youtubeRegex] allows before the video id. *)
Definition youtubeSchemes : list string := [EmptyString; "http://"; "https://"].
Definition youtubeHosts : list string := [EmptyString; "www."].
Definition youtubePaths : list string :=
  ["youtube.com/watch?v="; "youtube.com/embed/"; "youtu.be/"].

Definition youtubePrefixes : list string :=
  flat_map (fun scheme =>
    flat_map (fun host =>
      map (fun path => (scheme ++ host ++ path)%string) youtubePaths)
      youtubeHosts)
    youtubeSchemes.

(** The two replacements of the white space in [simpleCleanTranscript], as
    functions on the characters: every run of white space becomes one
    blank ([inRun]: the previous character was white space); a white-space
    character right before a punctuation mark is dropped. *)
Fixpoint collapseSpaces (inRun : bool) (l : list ascii) : list ascii :=
  match l with
  | [] => []
  | x :: l' =>
      if isSpace x
      then if inRun then collapseSpaces true l' else " "%char :: collapseSpaces true l'
      else x :: collapseSpaces false l'
  end.

Fixpoint dropSpaceBeforePunct (l : list ascii) : list ascii :=
  match l with
  | [] => []
  | x :: l1 =>
      match l1 with
      | y :: l' =>
          if isSpace x && isPunct y then y :: dropSpaceBeforePunct l'
          else x :: dropSpaceBeforePunct l1
      | [] => [x]
      end
  end.

Fixpoint skipSpaces (l : list ascii) : list ascii :=
  match l with
  | x :: l' => if isSpace x then skipSpaces l' else l
  | [] => []
  end.

(** No two neighbours of which the first satisfies [p] and the second [q]. *)
Fixpoint noPair (p q : ascii -> bool) (l : list ascii) : bool :=
  match l with
  | x :: l1 =>
      match l1 with
      | y :: _ => negb (p x && q y) && noPair p q l1
      | [] => true
      end
  | [] => true
  end.

(** No two white-space characters in a row; no white space other than the
    blank; no white space right before a punctuation mark; no white space
    at either end. *)
Definition singleSpaced (l : list ascii) : bool := noPair isSpace isSpace l.

Definition blanksOnly (l : list ascii) : bool :=
  forallb (fun x => negb (isSpace x) || Ascii.eqb x " ") l.

Definition noSpaceBeforePunct (l : list ascii) : bool := noPair isSpace isPunct l.

Definition headNotSpace (l : list ascii) : bool :=
  match l with
  | x :: _ => negb (isSpace x)
  | [] => true
  end.

Definition trimmed (l : list ascii) : bool :=
  headNotSpace l && headNotSpace (rev l).

(** [trim] on the characters, and the capital put on the first one. *)
Definition trimChars (l : list ascii) : list ascii :=
  rev (trimStartChars (rev (trimStartChars l))).

Definition capitalizeChars (l : list ascii) : list ascii :=
  match l with
  | [] => []
  | x :: l' => upperChar x :: l'
  end.

(** A text of ASCII characters: on these the white space, the letters and
    the case mapping of the embedding are those of JavaScript. *)
Definition isAsciiText (s : string) : bool :=
  forallb (fun c => code c <? 128) (chars s).

Definition noCapital (l : list ascii) : bool :=
  forallb (fun c => negb (isUpper c)) l.

Definition untidyExample : string := "  so   THIS is , well , GREAT !  ".

(** The record that the callback of [cleanedSegments.map] builds for an
    element other than null: [start], [end] and [cleanedText] read from the
    element, no original text. *)
Definition recordOfReply (segment : json) : CleanedSegment :=
  {| cs_start := getProp "start" segment;
     cs_end := getProp "end" segment;
     cs_originalText := None;
     cs_cleanedText := getProp "cleanedText" segment |}.

(** The language model answers with an array that holds a null. *)
Definition nullElementHost : Host :=
  exampleHost exampleStream exampleTranscription (Ret (Some "[null]")).

(** * Properties *)

Ltac unfoldM :=
  unfold bind, ret, throw, emit, liftRes, tryCatch in *.

(** ** The cleaning by the language model *)

Lemma mapRes_length {A B} (f : A -> res B) (l : list A) (out : list B) :
  mapRes f l = Ret out -> List.length out = List.length l.
Proof.
  revert out; induction l as [|a l IH]; simpl; intros out H.
  - injection H as <-. reflexivity.
  - destruct (f a) as [b|e]; [|discriminate].
    destruct (mapRes f l) as [bs|e]; [|discriminate].
    injection H as <-. simpl. f_equal. apply IH. reflexivity.
Qed.

Lemma mapRes_cleanedOfReply_timestamps (items : list json) (out : list CleanedSegment) :
  mapRes cleanedOfReply items = Ret out ->
  timestamps out = replyTimestamps items.
Proof.
  revert out; induction items as [|v items IH]; simpl; intros out H.
  - injection H as <-. reflexivity.
  - destruct (cleanedOfReply v) as [c|e] eqn:Hv; [|discriminate].
    destruct (mapRes cleanedOfReply items) as [cs|e]; [|discriminate].
    injection H as <-. simpl. rewrite (IH cs eq_refl). f_equal.
    destruct v; simpl in Hv; try discriminate; injection Hv as <-; reflexivity.
Qed.

Lemma timestamps_uncleaned (segments : list TranscriptSegment) :
  timestamps (map uncleanedSegment segments) = rawTimestamps segments.
Proof.
  unfold timestamps, rawTimestamps. rewrite map_map. reflexivity.
Qed.

Lemma timestamps_length_eq (out : list CleanedSegment) (segments : list TranscriptSegment) :
  timestamps out = rawTimestamps segments ->
  List.length out = List.length segments.
Proof.
  intros H. apply (f_equal (@List.length _)) in H.
  unfold timestamps, rawTimestamps in H. now rewrite !length_map in H.
Qed.

(** The [try] block writes one console line, makes the call, and ends as
    [attemptOutcome] says. *)
Lemma geminiAttempt_run (h : Host) (segments : list TranscriptSegment) (tr : trace) :
  geminiAttempt h segments tr =
  (attemptOutcome h segments,
   (tr ++ [Log "Sending request to Gemini..."]) ++ [GeminiPost segments]).
Proof.
  unfold geminiAttempt, attemptOutcome. unfoldM.
  destruct (gemini h segments) as [[text|]|e]; try reflexivity.
  destruct (jsonMatch text) as [m|]; try reflexivity.
  destruct (JSON_parse h m) as [v|]; reflexivity.
Qed.

Lemma cleanTranscriptWithGemini_run (h : Host) (segments : list TranscriptSegment)
    (tr : trace) :
  cleanTranscriptWithGemini h segments tr =
  match attemptOutcome h segments with
  | Ret out =>
      (Ret out, (tr ++ [Log "Sending request to Gemini..."]) ++ [GeminiPost segments])
  | Throw e =>
      (Ret (map uncleanedSegment segments),
       ((tr ++ [Log "Sending request to Gemini..."]) ++ [GeminiPost segments])
         ++ [LogError "Error cleaning transcript with Gemini:" e])
  end.
Proof.
  unfold cleanTranscriptWithGemini, tryCatch at 1.
  rewrite geminiAttempt_run.
  destruct (attemptOutcome h segments); reflexivity.
Qed.

Lemma cleanTranscriptWithGemini_returns (h : Host) (segments : list TranscriptSegment)
    (tr : trace) :
  exists out tr', cleanTranscriptWithGemini h segments tr = (Ret out, tr').
Proof.
  rewrite cleanTranscriptWithGemini_run.
  destruct (attemptOutcome h segments); eauto.
Qed.

(** A successful [try] block comes from a parsed array. *)
Lemma attemptOutcome_Ret (h : Host) (segments : list TranscriptSegment)
    (out : list CleanedSegment) :
  attemptOutcome h segments = Ret out ->
  exists items, replyParsedTo h segments items out.
Proof.
  unfold attemptOutcome, replyParsedTo. intros H.
  destruct (gemini h segments) as [[text|]|e]; try discriminate.
  destruct (jsonMatch text) as [m|] eqn:Hm; try discriminate.
  destruct (JSON_parse h m) as [v|] eqn:Hv; try discriminate.
  destruct v; simpl in H; try discriminate.
  exists items, text, m. auto.
Qed.

Lemma replyParsedTo_attemptOutcome (h : Host) (segments : list TranscriptSegment)
    (items : list json) (out : list CleanedSegment) :
  replyParsedTo h segments items out -> attemptOutcome h segments = Ret out.
Proof.
  intros (text & m & Hg & Hm & Hp & Ho). unfold attemptOutcome.
  rewrite Hg, Hm, Hp. exact Ho.
Qed.

(** The callback of [cleanedSegments.map] throws on a null and on nothing
    else. *)
Lemma cleanedOfReply_not_null (v : json) :
  v <> JNull -> cleanedOfReply v = Ret (recordOfReply v).
Proof. destruct v; intros H; [contradiction|reflexivity..]. Qed.

Lemma mapRes_cleanedOfReply_null (items : list json) :
  In JNull items -> exists e, mapRes cleanedOfReply items = Throw e.
Proof.
  induction items as [|v items IH]; intros H; [contradiction|].
  cbn [mapRes].
  destruct (cleanedOfReply v) as [c|e] eqn:Hv; [|eauto].
  destruct H as [->|H]; [discriminate|].
  destruct (IH H) as [e ->]. eauto.
Qed.

Lemma mapRes_cleanedOfReply_records (items : list json) :
  ~ In JNull items -> mapRes cleanedOfReply items = Ret (map recordOfReply items).
Proof.
  induction items as [|v items IH]; intros H; [reflexivity|].
  cbn [mapRes map].
  rewrite cleanedOfReply_not_null by (intros ->; apply H; now left).
  rewrite IH by (intros Hin; apply H; now right).
  reflexivity.
Qed.

(** C1 (as amended).  The cleaning by the language model never throws: it
    always returns a list of cleaned segments.  In every failure of its
    [try] block (the call is rejected, by a network error or a timeout; the
    reply has no text; the text has no bracketed part; the bracketed part is
    not JSON, is not an array, or is an array with a null element) the
    result is the input segments, one for one, so of the same length.  In
    the one remaining case, a bracketed part that parses to an array without
    a null element, the result is one record for each element of that
    array, with the values read from the element: it has the length of the
    array, whatever the length of the input. *)
Theorem cleanTranscriptWithGemini_total
    (h : Host) (segments : list TranscriptSegment) (tr : trace) :
  exists out tr',
    cleanTranscriptWithGemini h segments tr = (Ret out, tr') /\
    ((out = map uncleanedSegment segments /\
      List.length out = List.length segments) \/
     (exists items, replyParsedTo h segments items out /\
                    List.length out = List.length items)) /\
    (forall e, gemini h segments = Throw e ->
               out = map uncleanedSegment segments /\
               List.length out = List.length segments) /\
    (gemini h segments = Ret None ->
     out = map uncleanedSegment segments /\
     List.length out = List.length segments) /\
    (forall text, gemini h segments = Ret (Some text) ->
                  jsonMatch text = None ->
                  out = map uncleanedSegment segments /\
                  List.length out = List.length segments) /\
    (forall text m, gemini h segments = Ret (Some text) ->
                    jsonMatch text = Some m ->
                    JSON_parse h m = None ->
                    out = map uncleanedSegment segments /\
                    List.length out = List.length segments) /\
    (forall text m v, gemini h segments = Ret (Some text) ->
                      jsonMatch text = Some m ->
                      JSON_parse h m = Some v ->
                      (forall items, v <> JArr items) ->
                      out = map uncleanedSegment segments /\
                      List.length out = List.length segments) /\
    (forall text m items, gemini h segments = Ret (Some text) ->
                          jsonMatch text = Some m ->
                          JSON_parse h m = Some (JArr items) ->
                          In JNull items ->
                          out = map uncleanedSegment segments /\
                          List.length out = List.length segments) /\
    (forall text m items, gemini h segments = Ret (Some text) ->
                          jsonMatch text = Some m ->
                          JSON_parse h m = Some (JArr items) ->
                          ~ In JNull items ->
                          out = map recordOfReply items /\
                          List.length out = List.length items).
Proof.
  rewrite cleanTranscriptWithGemini_run.
  destruct (attemptOutcome h segments) as [out|e] eqn:Hout.
  - exists out, ((tr ++ [Log "Sending request to Gemini..."]) ++ [GeminiPost segments]).
    split; [reflexivity|].
    destruct (attemptOutcome_Ret _ _ _ Hout) as (items & Hitems).
    split.
    { right. exists items. split; [exact Hitems|].
      destruct Hitems as (text & m & _ & _ & _ & Hmap).
      now apply mapRes_length in Hmap. }
    unfold attemptOutcome in Hout.
    split; [intros e He; rewrite He in Hout; discriminate|].
    split; [intros He; rewrite He in Hout; discriminate|].
    split; [intros text Ht Hm; rewrite Ht, Hm in Hout; discriminate|].
    split; [intros text m Ht Hm Hp; rewrite Ht, Hm, Hp in Hout; discriminate|].
    split.
    { intros text m v Ht Hm Hp Hv. rewrite Ht, Hm, Hp in Hout.
      destruct v as [| | | |arr|]; simpl in Hout; try discriminate.
      exfalso. apply (Hv arr). reflexivity. }
    split.
    + intros text m arr Ht Hm Hp Hnull. rewrite Ht, Hm, Hp in Hout.
      cbn [mapReply] in Hout.
      destruct (mapRes_cleanedOfReply_null arr Hnull) as [e He].
      rewrite He in Hout. discriminate.
    + intros text m arr Ht Hm Hp Hnull. rewrite Ht, Hm, Hp in Hout.
      cbn [mapReply] in Hout.
      rewrite (mapRes_cleanedOfReply_records arr Hnull) in Hout.
      injection Hout as <-. split; [reflexivity | apply length_map].
  - exists (map uncleanedSegment segments). eexists. split; [reflexivity|].
    assert (Hfall : map uncleanedSegment segments = map uncleanedSegment segments /\
                    List.length (map uncleanedSegment segments) = List.length segments)
      by (split; [reflexivity | apply length_map]).
    split; [left; exact Hfall|].
    split; [intros; exact Hfall|].
    split; [intros; exact Hfall|].
    split; [intros; exact Hfall|].
    split; [intros; exact Hfall|].
    split; [intros; exact Hfall|].
    split; [intros; exact Hfall|].
    intros text m arr Ht Hm Hp Hnull. exfalso.
    unfold attemptOutcome in Hout. rewrite Ht, Hm, Hp in Hout.
    cbn [mapReply] in Hout.
    rewrite (mapRes_cleanedOfReply_records arr Hnull) in Hout. discriminate.
Qed.

Lemma cleanTranscriptWithGemini_total_witness :
  (exists out tr',
     cleanTranscriptWithGemini rejectingHost exampleSegments [] = (Ret out, tr') /\
     out = map uncleanedSegment exampleSegments /\ List.length out = 2) /\
  (exists out tr',
     cleanTranscriptWithGemini nullElementHost exampleSegments [] = (Ret out, tr') /\
     out = map uncleanedSegment exampleSegments /\ List.length out = 2) /\
  (exists out tr',
     cleanTranscriptWithGemini mergingHost exampleSegments [] = (Ret out, tr') /\
     List.length out = 1).
Proof.
  split; [|split].
  - destruct (cleanTranscriptWithGemini_total rejectingHost exampleSegments [])
      as (out & tr' & Hrun & _ & Hthrow & _).
    exists out, tr'. split; [exact Hrun|].
    exact (Hthrow (AxiosError "timeout of 80000ms exceeded" None) eq_refl).
  - destruct (cleanTranscriptWithGemini_total nullElementHost exampleSegments [])
      as (out & tr' & Hrun & _ & _ & _ & _ & _ & _ & Hnull & _).
    exists out, tr'. split; [exact Hrun|].
    apply (Hnull "[null]" "[null]" [JNull]);
      [reflexivity | vm_compute; reflexivity | vm_compute; reflexivity
      | left; reflexivity].
  - destruct (cleanTranscriptWithGemini_total mergingHost exampleSegments [])
      as (out & tr' & Hrun & _ & _ & _ & _ & _ & _ & _ & Hrecords).
    exists out, tr'. split; [exact Hrun|].
    destruct (Hrecords mergedReply mergedReply
                [JObj [("id", JNum 1%float); ("start", JNum 0%float);
                       ("end", JNum 7%float);
                       ("cleanedText", JStr "I think it works. It is done")]])
      as [_ Hlen];
      [reflexivity | vm_compute; reflexivity | vm_compute; reflexivity
      | intros [H|[]]; discriminate | exact Hlen].
Defined.

(** C1 as stated fails: when the language model answers with the empty
    array, the two input segments are cleaned to no segment at all. *)
Lemma empty_array_reply_loses_the_segments :
  exists out tr',
    cleanTranscriptWithGemini emptyArrayHost exampleSegments [] = (Ret out, tr') /\
    List.length out <> List.length exampleSegments.
Proof.
  exists [], [Log "Sending request to Gemini..."; GeminiPost exampleSegments].
  split; [vm_compute; reflexivity | simpl; discriminate].
Qed.

(** ** Timestamps *)

Lemma simpleCleanTranscript_timestamps (segments : list TranscriptSegment) :
  timestamps (simpleCleanTranscript segments) = rawTimestamps segments.
Proof.
  unfold timestamps, rawTimestamps, simpleCleanTranscript.
  rewrite map_map. reflexivity.
Qed.

(** C2 (as amended).  The local cleaning returns, for every sequence of raw
    segments, a sequence of the same length with the same start and end
    times in the same order.  So does the cleaning by the language model
    whenever its [try] block fails.  When the [try] block succeeds, the
    result has the length, the order and the start and end values of the
    array parsed from the reply, whatever the raw segments were. *)
Theorem cleanup_timestamps
    (h : Host) (segments : list TranscriptSegment) (tr : trace) :
  (timestamps (simpleCleanTranscript segments) = rawTimestamps segments /\
   List.length (simpleCleanTranscript segments) = List.length segments) /\
  exists out tr',
    cleanTranscriptWithGemini h segments tr = (Ret out, tr') /\
    (((exists e tr1, geminiAttempt h segments tr = (Throw e, tr1)) /\
      timestamps out = rawTimestamps segments /\
      List.length out = List.length segments) \/
     (exists items,
        replyParsedTo h segments items out /\
        timestamps out = replyTimestamps items /\
        List.length out = List.length items)).
Proof.
  split.
  { split; [apply simpleCleanTranscript_timestamps|].
    unfold simpleCleanTranscript. apply length_map. }
  rewrite cleanTranscriptWithGemini_run, geminiAttempt_run.
  destruct (attemptOutcome h segments) as [out|e] eqn:Hout.
  - eexists. eexists. split; [reflexivity|]. right.
    destruct (attemptOutcome_Ret _ _ _ Hout) as (items & Hitems).
    exists items. split; [exact Hitems|].
    destruct Hitems as (text & m & _ & _ & _ & Hmap).
    split; [now apply mapRes_cleanedOfReply_timestamps|].
    apply (mapRes_length _ _ _ Hmap).
  - eexists. eexists. split; [reflexivity|]. left.
    split; [eauto|].
    split; [apply timestamps_uncleaned | apply length_map].
Qed.

(** C2 as stated fails on the path through the language model: a reply
    that merges the two segments is returned as it is, one segment ending
    at 7 for two raw segments ending at 2.5 and 6.5. *)
Lemma merged_reply_changes_count_and_timestamps :
  exists out tr',
    cleanTranscriptWithGemini mergingHost exampleSegments [] = (Ret out, tr') /\
    List.length out <> List.length exampleSegments /\
    timestamps out <> rawTimestamps exampleSegments.
Proof.
  exists [ {| cs_start := Some (JNum 0%float); cs_end := Some (JNum 7%float);
             cs_originalText := None;
             cs_cleanedText := Some (JStr "I think it works. It is done") |} ],
         [Log "Sending request to Gemini..."; GeminiPost exampleSegments].
  split; [vm_compute; reflexivity|].
  split; simpl; discriminate.
Qed.

(** ** The local cleaning of the example segment *)

Lemma simpleCleanText_fillerExample :
  simpleCleanText fillerExample = "I think,, it works".
Proof. vm_compute. reflexivity. Qed.

(** C4 (as amended).  The local cleaning of a segment with the text
    "um so like I think, you know, it works" keeps its timestamps and its
    original text and yields the cleaned text "I think,, it works": no
    filler phrase is left as a word of its own, no two white-space
    characters follow each other, none precedes a punctuation mark, and the
    first letter is a capital; the comma that followed "you know" is kept,
    next to the comma that preceded it. *)
Theorem simpleClean_fillerExample (start end_ : number) :
  simpleCleanTranscript
    [ {| ts_start := start; ts_end := end_; ts_text := fillerExample |} ] =
    [ {| cs_start := Some (JNum start); cs_end := Some (JNum end_);
         cs_originalText := Some (JStr fillerExample);
         cs_cleanedText := Some (JStr "I think,, it works") |} ] /\
  hasStandaloneFiller "I think,, it works" = false /\
  hasDoubleSpace "I think,, it works" = false /\
  hasSpaceBeforePunct "I think,, it works" = false /\
  startsCapitalized "I think,, it works" = true.
Proof.
  split.
  - unfold simpleCleanTranscript, simpleCleanSegment; simpl.
    rewrite simpleCleanText_fillerExample. reflexivity.
  - repeat split; vm_compute; reflexivity.
Qed.

(** C4 as stated fails: the cleaned text is not "I think, it works". *)
Lemma fillerExample_keeps_both_commas :
  simpleCleanTranscript
    [ {| ts_start := 0%float; ts_end := 2.5%float; ts_text := fillerExample |} ] <>
    [ {| cs_start := Some (JNum 0%float); cs_end := Some (JNum 2.5%float);
         cs_originalText := Some (JStr fillerExample);
         cs_cleanedText := Some (JStr "I think, it works") |} ].
Proof.
  unfold simpleCleanTranscript, simpleCleanSegment; simpl.
  rewrite simpleCleanText_fillerExample. intros H. discriminate H.
Qed.

(** ** The extraction of the array from the reply *)

Lemma chars_app (a b : string) : chars (a ++ b)%string = chars a ++ chars b.
Proof.
  unfold chars. induction a as [|c a IH]; simpl; [reflexivity|].
  now rewrite IH.
Qed.

Lemma str_chars (s : string) : str (chars s) = s.
Proof. apply string_of_list_ascii_of_string. Qed.

Lemma chars_str (l : list ascii) : chars (str l) = l.
Proof. apply list_ascii_of_string_of_list_ascii. Qed.

Lemma str_app (a b : list ascii) : str (a ++ b) = (str a ++ str b)%string.
Proof.
  unfold str. induction a as [|c a IH]; simpl; [reflexivity|].
  now rewrite IH.
Qed.

(** The equations of the matcher. *)

Lemma rmatch_Char_cons (i : bool) (c x : ascii) (b a : list ascii)
    (cs : list (nat * list ascii)) (k : Continuation) :
  rmatch i (Char c) (MState b (x :: a) cs) k =
  if charMatches i c x then k (MState (x :: b) a cs) else None.
Proof. reflexivity. Qed.

Lemma rmatch_Char_nil (i : bool) (c : ascii) (b : list ascii)
    (cs : list (nat * list ascii)) (k : Continuation) :
  rmatch i (Char c) (MState b [] cs) k = None.
Proof. reflexivity. Qed.

Lemma rmatch_Class_cons (i : bool) (p : ascii -> bool) (x : ascii)
    (b a : list ascii) (cs : list (nat * list ascii)) (k : Continuation) :
  rmatch i (Class p) (MState b (x :: a) cs) k =
  if p x then k (MState (x :: b) a cs) else None.
Proof. reflexivity. Qed.

Lemma rmatch_Class_nil (i : bool) (p : ascii -> bool) (b : list ascii)
    (cs : list (nat * list ascii)) (k : Continuation) :
  rmatch i (Class p) (MState b [] cs) k = None.
Proof. reflexivity. Qed.

Lemma rmatch_Seq (i : bool) (r1 r2 : regex) (st : mstate) (k : Continuation) :
  rmatch i (Seq r1 r2) st k = rmatch i r1 st (fun st' => rmatch i r2 st' k).
Proof. reflexivity. Qed.

Lemma rmatch_Star (i : bool) (r : regex) (st : mstate) (k : Continuation) :
  rmatch i (Star r) st k = starLoop (rmatch i r) k (List.length (after st)) st.
Proof. reflexivity. Qed.

Lemma starLoop_S (body : mstate -> Continuation -> option mstate)
    (k : Continuation) (n : nat) (st : mstate) :
  starLoop body k (S n) st =
  match body st (fun st' =>
            if List.length (after st') <? List.length (after st)
            then starLoop body k n st' else None) with
  | Some e => Some e
  | None => k st
  end.
Proof. reflexivity. Qed.

Lemma ltb_length_cons {A} (x : A) (l : list A) :
  (List.length l <? List.length (x :: l)) = true.
Proof. apply Nat.ltb_lt. simpl. lia. Qed.

Lemma charMatches_exact_false (c x : ascii) :
  negb (Ascii.eqb x c) = true -> charMatches false c x = false.
Proof.
  intros H. unfold charMatches. rewrite Ascii.eqb_sym.
  now apply negb_true_iff.
Qed.

Section ArrayExtraction.

(** The continuation of [[\s\S]*] in [jsonArrayRegex]: the closing bracket,
    then the end of the match. *)
Let closing : Continuation :=
  fun st' => rmatch false (Char "]") st' (fun st => Some st).

Let anyChar : ascii -> bool := fun c => isSpace c || negb (isSpace c).

Let anyBody : mstate -> Continuation -> option mstate :=
  rmatch false (Class anyChar).

Lemma anyChar_true (x : ascii) : anyChar x = true.
Proof. unfold anyChar. apply orb_negb_r. Qed.

Lemma closing_not_bracket (x : ascii) (b s : list ascii)
    (c : list (nat * list ascii)) :
  negb (Ascii.eqb x "]") = true ->
  closing (MState b (x :: s) c) = None.
Proof.
  intros Hx. unfold closing. rewrite rmatch_Char_cons.
  now rewrite (charMatches_exact_false _ _ Hx).
Qed.

(** Without a closing bracket ahead, the iteration finds no match. *)
Lemma starLoop_no_closing (s : list ascii) :
  forallb (fun x => negb (Ascii.eqb x "]")) s = true ->
  forall n b c, starLoop anyBody closing n (MState b s c) = None.
Proof.
  intros Hs n. revert s Hs.
  induction n as [|n IH]; intros s Hs b c.
  - cbn [starLoop]. destruct s as [|x s]; [reflexivity|].
    cbn [forallb] in Hs. apply andb_prop in Hs as [Hx _].
    now apply closing_not_bracket.
  - rewrite starLoop_S. destruct s as [|x s].
    + unfold anyBody. rewrite rmatch_Class_nil. reflexivity.
    + cbn [forallb] in Hs. apply andb_prop in Hs as [Hx Hs].
      unfold anyBody at 1. rewrite rmatch_Class_cons, anyChar_true.
      cbn [after]. rewrite ltb_length_cons, (IH s Hs).
      now apply closing_not_bracket.
Qed.

(** The greedy iteration stops at the last closing bracket. *)
Lemma starLoop_last_closing (s : list ascii) :
  forallb (fun x => negb (Ascii.eqb x "]")) s = true ->
  forall body n b c,
    List.length (body ++ "]"%char :: s) <= n ->
    starLoop anyBody closing n (MState b (body ++ "]"%char :: s) c) =
    Some (MState ("]"%char :: rev body ++ b) s c).
Proof.
  intros Hs body.
  induction body as [|x body IH]; intros n b c Hn.
  - destruct n as [|n]; [simpl in Hn; lia|].
    rewrite starLoop_S. cbn [app].
    unfold anyBody at 1. rewrite rmatch_Class_cons, anyChar_true.
    cbn [after]. rewrite ltb_length_cons, (starLoop_no_closing s Hs).
    reflexivity.
  - destruct n as [|n]; [simpl in Hn; lia|].
    rewrite starLoop_S. cbn [app].
    unfold anyBody at 1. rewrite rmatch_Class_cons, anyChar_true.
    cbn [after]. rewrite ltb_length_cons.
    rewrite IH by (simpl in Hn; lia).
    cbn [rev]. now rewrite <- app_assoc.
Qed.

(** An attempt at an opening bracket runs to the last closing bracket. *)
Lemma matchHere_array (bef body s : list ascii) :
  forallb (fun x => negb (Ascii.eqb x "]")) s = true ->
  matchHere false jsonArrayRegex bef ("["%char :: body ++ "]"%char :: s) =
  Some (MState ("]"%char :: rev body ++ "["%char :: bef) s []).
Proof.
  intros Hs. unfold matchHere, jsonArrayRegex.
  rewrite rmatch_Seq, rmatch_Char_cons.
  change (charMatches false "[" "[") with true. cbv iota.
  rewrite rmatch_Seq, rmatch_Star. cbn [after].
  apply (starLoop_last_closing s Hs body). lia.
Qed.

(** An attempt anywhere else fails at once. *)
Lemma matchHere_not_bracket (bef : list ascii) (x : ascii) (aft : list ascii) :
  negb (Ascii.eqb x "[") = true ->
  matchHere false jsonArrayRegex bef (x :: aft) = None.
Proof.
  intros Hx. unfold matchHere, jsonArrayRegex.
  rewrite rmatch_Seq, rmatch_Char_cons.
  now rewrite (charMatches_exact_false _ _ Hx).
Qed.

Lemma execFrom_array (p body s : list ascii) :
  forallb (fun x => negb (Ascii.eqb x "[")) p = true ->
  forallb (fun x => negb (Ascii.eqb x "]")) s = true ->
  forall bef,
    execFrom false jsonArrayRegex bef (p ++ "["%char :: body ++ "]"%char :: s) =
    Some (MState (rev p ++ bef) ("["%char :: body ++ "]"%char :: s) [],
          MState ("]"%char :: rev body ++ "["%char :: rev p ++ bef) s []).
Proof.
  intros Hp Hs. induction p as [|x p IH]; intros bef.
  - cbn [app rev execFrom]. rewrite (matchHere_array _ _ _ Hs). reflexivity.
  - cbn [forallb] in Hp. apply andb_prop in Hp as [Hx Hp].
    cbn [app execFrom]. rewrite (matchHere_not_bracket _ _ _ Hx).
    rewrite (IH Hp). cbn [rev]. now rewrite <- !app_assoc.
Qed.

End ArrayExtraction.

(** The match runs from the first opening bracket to the last closing
    bracket of the text. *)
Lemma jsonMatch_first_to_last (prefix body suffix : string) :
  lacks "[" prefix = true ->
  lacks "]" suffix = true ->
  jsonMatch (prefix ++ "[" ++ body ++ "]" ++ suffix)%string =
  Some ("[" ++ body ++ "]")%string.
Proof.
  intros Hp Hs. unfold jsonMatch, match0.
  rewrite !chars_app. change (chars "[") with ["["%char].
  change (chars "]") with ["]"%char]. cbn [app].
  rewrite (execFrom_array _ _ _ Hp Hs).
  unfold matched. cbn [after].
  f_equal.
  replace (List.length ("["%char :: chars body ++ "]"%char :: chars suffix)
             - List.length (chars suffix))
    with (List.length ("["%char :: chars body ++ ["]"%char]))
    by (cbn [List.length]; rewrite !length_app; cbn [List.length]; lia).
  change ("["%char :: chars body ++ "]"%char :: chars suffix)
    with (("["%char :: chars body) ++ "]"%char :: chars suffix).
  change ("]"%char :: chars suffix) with (["]"%char] ++ chars suffix).
  rewrite app_assoc.
  change (("["%char :: chars body) ++ ["]"%char])
    with ("["%char :: chars body ++ ["]"%char]).
  rewrite firstn_app, firstn_all, Nat.sub_diag. cbn [firstn].
  rewrite app_nil_r.
  change ("["%char :: chars body ++ ["]"%char])
    with (chars "[" ++ chars body ++ chars "]").
  rewrite !str_app, !str_chars. reflexivity.
Qed.

(** C5 (as amended).  For a reply whose text before the first opening
    bracket and after the last closing bracket is free of brackets (prose
    around one array, as in "Here is the result:\n[{...}]\nHope this
    helps"), the extraction yields exactly the bracketed part, and it is
    exactly that part that is parsed.  In general the match runs from the
    first opening bracket to the last closing bracket of the whole reply;
    the nesting of the brackets is not followed. *)
Theorem extraction_first_to_last
    (h : Host) (segments : list TranscriptSegment) (tr : trace)
    (prefix body suffix : string) :
  lacks "[" prefix = true ->
  lacks "]" suffix = true ->
  jsonMatch (prefix ++ "[" ++ body ++ "]" ++ suffix)%string =
    Some ("[" ++ body ++ "]")%string /\
  (gemini h segments = Ret (Some (prefix ++ "[" ++ body ++ "]" ++ suffix)%string) ->
   geminiAttempt h segments tr =
   (match JSON_parse h ("[" ++ body ++ "]")%string with
    | Some v => mapReply v
    | None => Throw (JsError "Unexpected token in JSON")
    end,
    (tr ++ [Log "Sending request to Gemini..."]) ++ [GeminiPost segments])).
Proof.
  intros Hp Hs.
  pose proof (jsonMatch_first_to_last prefix body suffix Hp Hs) as Hm.
  split; [exact Hm|].
  intros Hg. rewrite geminiAttempt_run. unfold attemptOutcome.
  rewrite Hg, Hm. reflexivity.
Qed.

Lemma extraction_first_to_last_witness :
  jsonMatch wrappedReply = Some ("[" ++ wrappedBody ++ "]")%string /\
  geminiAttempt wrappingHost exampleSegments [] =
  (match JSON_parse wrappingHost ("[" ++ wrappedBody ++ "]")%string with
   | Some v => mapReply v
   | None => Throw (JsError "Unexpected token in JSON")
   end,
   ([] ++ [Log "Sending request to Gemini..."]) ++ [GeminiPost exampleSegments]).
Proof.
  destruct (extraction_first_to_last wrappingHost exampleSegments []
              wrappedPrefix wrappedBody wrappedSuffix eq_refl eq_refl)
    as [Hm Hrun].
  split; [exact Hm | exact (Hrun eq_refl)].
Defined.

(** The array of the wrapped reply is read back in full. *)
Example wrapped_reply_is_cleaned :
  fst (cleanTranscriptWithGemini wrappingHost exampleSegments []) =
  Ret [ {| cs_start := Some (JNum 0%float); cs_end := Some (JNum 2.5%float);
           cs_originalText := None;
           cs_cleanedText := Some (JStr "I think it works") |};
        {| cs_start := Some (JNum 2.5%float); cs_end := Some (JNum 6.5%float);
           cs_originalText := None;
           cs_cleanedText := Some (JStr "It is done") |} ].
Proof. vm_compute. reflexivity. Qed.

(** C5 as stated fails: in a reply with two arrays the scan to the matching
    bracket would stop after the first array, but the match of the route
    runs on to the end of the second; that text is not JSON, so the reply is
    dropped although its first array is well formed. *)
Lemma two_arrays_match_runs_to_the_last_bracket :
  spec_balancedArray twoArraysReply = Some "[1]" /\
  jsonMatch twoArraysReply = Some "[1] and [2]" /\
  jsonMatch twoArraysReply <> spec_balancedArray twoArraysReply /\
  JsonRef.parse "[1]" = Some (JArr [JNum 1%float]) /\
  JsonRef.parse "[1] and [2]" = None.
Proof.
  repeat split; try (vm_compute; reflexivity).
  vm_compute. discriminate.
Qed.

(** ** The runs of the pipeline *)

Section PipelineRuns.

Variable h : Host.
Variable youtubeUrl : string.

Let requestId : string := substring 0 8 (uuidv4 h).

(** The trace once the download has settled. *)
Let afterDownload (tr : trace) (lines : list event) : trace :=
  ((tr ++ [Log (tagged requestId
                  ("Starting transcript processing for: " ++ youtubeUrl))])
     ++ [Log (tagged requestId "Downloading audio to memory...")])
    ++ [Ytdl youtubeUrl] ++ lines.

(** The trace once the transcription service has answered. *)
Let afterDeepgram (tr : trace) (lines : list event) (audio : list byte) : trace :=
  ((((afterDownload tr lines)
       ++ [Log (tagged requestId
                  ("Audio downloaded successfully, size: "
                     ++ toFixed2MB (List.length audio) ++ "MB"))])
      ++ [Log (tagged requestId "Transcribing with Deepgram...")])
     ++ [Log "Sending audio to Deepgram..."])
    ++ [DeepgramPost audio].

Lemma process_download_rejected (tr : trace) (t : Z) (lines : list event)
    (e : thrown) :
  awaitDownload (ytdl h youtubeUrl) [] = (t, lines, Throw e) ->
  processYouTubeTranscript h youtubeUrl tr =
  (Ret (Failure (errorText e) (Some requestId)),
   afterDownload tr lines ++ [LogError (tagged requestId "Error:") e]).
Proof.
  intros Hd. unfold processYouTubeTranscript, downloadAudioToBuffer. unfoldM.
  rewrite Hd. reflexivity.
Qed.

Lemma process_download_empty (tr : trace) (t : Z) (lines : list event) :
  awaitDownload (ytdl h youtubeUrl) [] = (t, lines, Ret []) ->
  processYouTubeTranscript h youtubeUrl tr =
  (Ret (Failure "Downloaded audio buffer is empty" (Some requestId)),
   afterDownload tr lines
     ++ [LogError (tagged requestId "Error:")
           (JsError "Downloaded audio buffer is empty")]).
Proof.
  intros Hd. unfold processYouTubeTranscript, downloadAudioToBuffer. unfoldM.
  rewrite Hd. reflexivity.
Qed.

Lemma process_deepgram_rejected (tr : trace) (t : Z) (lines : list event)
    (audio : list byte) (e : thrown) :
  awaitDownload (ytdl h youtubeUrl) [] = (t, lines, Ret audio) ->
  audio <> [] ->
  deepgram h audio = Throw e ->
  processYouTubeTranscript h youtubeUrl tr =
  (Ret (Failure ("Deepgram transcription failed: " ++ deepgramErrorDetail e)%string
          (Some requestId)),
   (afterDeepgram tr lines audio ++ [LogError "Deepgram API error:" e])
     ++ [LogError (tagged requestId "Error:")
           (JsError ("Deepgram transcription failed: "
                       ++ deepgramErrorDetail e)%string)]).
Proof.
  intros Hd Ha Hg.
  unfold processYouTubeTranscript, downloadAudioToBuffer, transcribeWithDeepgram.
  unfoldM. rewrite Hd.
  destruct audio as [|b audio]; [contradiction|].
  cbn [List.length Nat.eqb]. rewrite Hg. reflexivity.
Qed.

Lemma process_no_utterances (tr : trace) (t : Z) (lines : list event)
    (audio : list byte) (data : DeepgramData) :
  awaitDownload (ytdl h youtubeUrl) [] = (t, lines, Ret audio) ->
  audio <> [] ->
  deepgram h audio = Ret data ->
  results_utterances data = None \/ results_utterances data = Some [] ->
  processYouTubeTranscript h youtubeUrl tr =
  (Ret (Failure "No utterances detected in the transcript." (Some requestId)),
   afterDeepgram tr lines audio
     ++ [LogError (tagged requestId "Error:")
           (JsError "No utterances detected in the transcript.")]).
Proof.
  intros Hd Ha Hg Hu.
  unfold processYouTubeTranscript, downloadAudioToBuffer, transcribeWithDeepgram.
  unfoldM. rewrite Hd.
  destruct audio as [|b audio]; [contradiction|].
  cbn [List.length Nat.eqb]. rewrite Hg.
  destruct Hu as [Hu|Hu]; rewrite Hu; reflexivity.
Qed.

Lemma process_cleaned (tr : trace) (t : Z) (lines : list event)
    (audio : list byte) (data : DeepgramData) (u : Utterance)
    (us : list Utterance) :
  awaitDownload (ytdl h youtubeUrl) [] = (t, lines, Ret audio) ->
  audio <> [] ->
  deepgram h audio = Ret data ->
  results_utterances data = Some (u :: us) ->
  let segments := map segmentOfUtterance (u :: us) in
  let start :=
    (afterDeepgram tr lines audio
       ++ [Log (tagged requestId
                  ("Found " ++ showNat (List.length segments)
                     ++ " transcript segments"))])
      ++ [Log (tagged requestId "Cleaning transcript with Gemini AI...")] in
  exists cleaned tr',
    cleanTranscriptWithGemini h segments start = (Ret cleaned, tr') /\
    processYouTubeTranscript h youtubeUrl tr =
    (Ret (Success
            {| videoUrl := youtubeUrl;
               cleanedSegments := cleaned;
               totalDuration := totalDurationOf segments;
               segmentCount := List.length segments;
               audioSize := (toFixed2MB (List.length audio) ++ "MB")%string |}),
     tr' ++ [Log (tagged requestId "Transcript processing completed successfully")]).
Proof.
  intros Hd Ha Hg Hu segments start.
  destruct (cleanTranscriptWithGemini_returns h segments start)
    as (cleaned & tr' & Hc).
  exists cleaned, tr'. split; [exact Hc|].
  unfold processYouTubeTranscript, downloadAudioToBuffer, transcribeWithDeepgram.
  unfoldM. rewrite Hd.
  destruct audio as [|b audio]; [contradiction|].
  cbn [List.length Nat.eqb]. rewrite Hg, Hu.
  fold segments. 
  unfold start, afterDeepgram, afterDownload, requestId in Hc.
  cbn [List.length] in Hc. rewrite Hc. reflexivity.
Qed.

End PipelineRuns.

(** ** The audio download *)

(** How the promise of the download settles: by the timer, at 90000 ms; or
    earlier, by an error of the stream or by its end. *)
Lemma awaitDownload_settles (events : list (Z * StreamEvent)) :
  forall chunks t lines outcome,
    awaitDownload events chunks = (t, lines, outcome) ->
    (t = downloadTimeoutMs /\ lines = [] /\
     outcome = Throw (JsError "Audio download timeout after 90 seconds")) \/
    ((t < downloadTimeoutMs)%Z /\
     exists error, In (t, StreamError error) events /\
                   lines = [LogError "Stream error:" error] /\
                   outcome = Throw error) \/
    ((t < downloadTimeoutMs)%Z /\ In (t, End) events /\
     exists audio, lines = [Log ("Audio buffer size: "
                                   ++ showNat (List.length audio) ++ " bytes")%string] /\
                   outcome = Ret audio).
Proof.
  induction events as [|[t0 ev] events IH]; intros chunks t lines outcome H.
  - cbn [awaitDownload] in H. injection H as <- <- <-. left. auto.
  - cbn [awaitDownload] in H.
    destruct (downloadTimeoutMs <=? t0)%Z eqn:Ht.
    + injection H as <- <- <-. left. auto.
    + apply Z.leb_gt in Ht.
      destruct ev as [chunk| |error].
      * destruct (IH _ _ _ _ H) as [Hc|[(Hlt & error & Hin & Hc)|(Hlt & Hin & Hc)]].
        -- left. exact Hc.
        -- right. left. split; [exact Hlt|]. exists error.
           split; [right; exact Hin | exact Hc].
        -- right. right. split; [exact Hlt|]. split; [right; exact Hin | exact Hc].
      * injection H as <- <- <-. right. right.
        split; [exact Ht|]. split; [left; reflexivity|].
        exists (List.concat chunks). split; reflexivity.
      * injection H as <- <- <-. right. left.
        split; [exact Ht|]. exists error. split; [left; reflexivity|]. auto.
Qed.

Lemma filter_external_app (a b : trace) :
  filter isExternalCall (a ++ b) = filter isExternalCall a ++ filter isExternalCall b.
Proof. apply filter_app. Qed.

(** C8.  The download waits at most 90 seconds: its promise settles no
    later than 90000 ms after the call, by the timer if by nothing else.  It
    fails in three ways, each ending the pipeline, before any call to the
    transcription service or to the language model, with a failure result
    that carries the error of that way: the timer fired (the message of the
    timeout); the stream reported an error (the message of that error); the
    stream ended with no byte (the message of the empty buffer, which is not
    the message of the timeout). *)
Theorem download_bounded_and_failures_distinct
    (h : Host) (youtubeUrl : string) (t : Z) (lines : list event)
    (outcome : res (list byte)) :
  awaitDownload (ytdl h youtubeUrl) [] = (t, lines, outcome) ->
  downloadSettleTime h youtubeUrl = t /\
  (t <= 90000)%Z /\
  ((t = 90000%Z /\
    outcome = Throw (JsError "Audio download timeout after 90 seconds")) \/
   ((t < 90000)%Z /\
    exists error, In (t, StreamError error) (ytdl h youtubeUrl) /\
                  outcome = Throw error) \/
   ((t < 90000)%Z /\ In (t, End) (ytdl h youtubeUrl) /\
    exists audio, outcome = Ret audio)) /\
  (forall error,
     outcome = Throw error ->
     fst (processYouTubeTranscript h youtubeUrl []) =
       Ret (Failure (errorText error) (Some (substring 0 8 (uuidv4 h)))) /\
     filter isExternalCall (eventsOf (processYouTubeTranscript h youtubeUrl)) =
       [Ytdl youtubeUrl]) /\
  (outcome = Ret [] ->
   fst (processYouTubeTranscript h youtubeUrl []) =
     Ret (Failure "Downloaded audio buffer is empty"
            (Some (substring 0 8 (uuidv4 h)))) /\
   filter isExternalCall (eventsOf (processYouTubeTranscript h youtubeUrl)) =
     [Ytdl youtubeUrl]) /\
  errorText (JsError "Audio download timeout after 90 seconds") <>
    "Downloaded audio buffer is empty".
Proof.
  intros Hd.
  pose proof (awaitDownload_settles _ _ _ _ _ Hd) as Hs.
  assert (Hlines : filter isExternalCall lines = []).
  { destruct Hs as [(_ & -> & _)|[(_ & error & _ & -> & _)|(_ & _ & audio & -> & _)]];
      reflexivity. }
  split; [unfold downloadSettleTime; now rewrite Hd|].
  split.
  { unfold downloadTimeoutMs in Hs.
    destruct Hs as [(-> & _)|[(Hlt & _)|(Hlt & _)]]; lia. }
  split.
  { unfold downloadTimeoutMs in Hs.
    destruct Hs as [(Ht & _ & Ho)|[(Hlt & error & Hin & _ & Ho)|(Hlt & Hin & audio & _ & Ho)]].
    - left. auto.
    - right. left. split; [exact Hlt|]. exists error. auto.
    - right. right. split; [exact Hlt|]. split; [exact Hin|]. eauto. }
  split; [|split].
  - intros error ->. unfold eventsOf.
    rewrite (process_download_rejected h youtubeUrl [] t lines error Hd).
    cbn [fst snd]. split; [reflexivity|].
    rewrite !filter_external_app, Hlines. reflexivity.
  - intros ->. unfold eventsOf.
    rewrite (process_download_empty h youtubeUrl [] t lines Hd).
    cbn [fst snd]. split; [reflexivity|].
    rewrite !filter_external_app, Hlines. reflexivity.
  - cbn [errorText]. discriminate.
Qed.

Lemma download_bounded_and_failures_distinct_witness :
  fst (processYouTubeTranscript stalledHost youtubeWatchUrl []) =
    Ret (Failure "Audio download timeout after 90 seconds" (Some exampleRequestId)) /\
  fst (processYouTubeTranscript brokenStreamHost youtubeWatchUrl []) =
    Ret (Failure "Status code: 403" (Some exampleRequestId)) /\
  fst (processYouTubeTranscript emptyStreamHost youtubeWatchUrl []) =
    Ret (Failure "Downloaded audio buffer is empty" (Some exampleRequestId)).
Proof.
  split; [|split].
  - destruct (download_bounded_and_failures_distinct stalledHost youtubeWatchUrl
                90000%Z []
                (Throw (JsError "Audio download timeout after 90 seconds"))
                eq_refl) as (_ & _ & _ & Hthrow & _).
    exact (proj1 (Hthrow _ eq_refl)).
  - destruct (download_bounded_and_failures_distinct brokenStreamHost youtubeWatchUrl
                200%Z [LogError "Stream error:" (JsError "Status code: 403")]
                (Throw (JsError "Status code: 403"))
                eq_refl) as (_ & _ & _ & Hthrow & _).
    exact (proj1 (Hthrow _ eq_refl)).
  - destruct (download_bounded_and_failures_distinct emptyStreamHost youtubeWatchUrl
                300%Z [Log "Audio buffer size: 0 bytes"] (Ret [])
                eq_refl) as (_ & _ & _ & _ & Hempty & _).
    exact (proj1 (Hempty eq_refl)).
Defined.

(** ** The transcription *)

(** C7.  When the download has delivered a non-empty buffer and the
    transcription service answers with no utterance (the list is absent or
    empty), the pipeline ends, before any call to the language model, with a
    failure result whose error says that no utterances were detected.  When
    instead the call to the service is rejected, the error of the failure
    result starts with "Deepgram transcription failed: " and so is not the
    error of the first case. *)
Theorem no_utterances_failure
    (h : Host) (youtubeUrl : string) (t : Z) (lines : list event)
    (audio : list byte) :
  awaitDownload (ytdl h youtubeUrl) [] = (t, lines, Ret audio) ->
  audio <> [] ->
  (forall data,
     deepgram h audio = Ret data ->
     results_utterances data = None \/ results_utterances data = Some [] ->
     fst (processYouTubeTranscript h youtubeUrl []) =
       Ret (Failure "No utterances detected in the transcript."
              (Some (substring 0 8 (uuidv4 h)))) /\
     filter isExternalCall (eventsOf (processYouTubeTranscript h youtubeUrl)) =
       [Ytdl youtubeUrl; DeepgramPost audio]) /\
  (forall e,
     deepgram h audio = Throw e ->
     fst (processYouTubeTranscript h youtubeUrl []) =
       Ret (Failure ("Deepgram transcription failed: " ++ deepgramErrorDetail e)%string
              (Some (substring 0 8 (uuidv4 h)))) /\
     ("Deepgram transcription failed: " ++ deepgramErrorDetail e)%string <>
       "No utterances detected in the transcript.").
Proof.
  intros Hd Ha.
  pose proof (awaitDownload_settles _ _ _ _ _ Hd) as Hs.
  assert (Hlines : filter isExternalCall lines = []).
  { destruct Hs as [(_ & -> & _)|[(_ & error & _ & -> & _)|(_ & _ & a & -> & _)]];
      reflexivity. }
  split.
  - intros data Hg Hu. unfold eventsOf.
    rewrite (process_no_utterances h youtubeUrl [] t lines audio data Hd Ha Hg Hu).
    cbn [fst snd]. split; [reflexivity|].
    rewrite !filter_external_app, Hlines. reflexivity.
  - intros e Hg.
    rewrite (process_deepgram_rejected h youtubeUrl [] t lines audio e Hd Ha Hg).
    cbn [fst]. split; [reflexivity|].
    cbn [append]. discriminate.
Qed.

Lemma no_utterances_failure_witness :
  fst (processYouTubeTranscript silentHost youtubeWatchUrl []) =
    Ret (Failure "No utterances detected in the transcript." (Some exampleRequestId)) /\
  fst (processYouTubeTranscript deepgramDownHost youtubeWatchUrl []) =
    Ret (Failure "Deepgram transcription failed: Invalid credentials"
           (Some exampleRequestId)).
Proof.
  assert (Ha : exampleAudio <> []) by discriminate.
  split.
  - destruct (no_utterances_failure silentHost youtubeWatchUrl 500%Z
                [Log "Audio buffer size: 5 bytes"] exampleAudio eq_refl Ha)
      as [Hnone _].
    exact (proj1 (Hnone {| results_utterances := Some [] |} eq_refl
                    (or_intror eq_refl))).
  - destruct (no_utterances_failure deepgramDownHost youtubeWatchUrl 500%Z
                [Log "Audio buffer size: 5 bytes"] exampleAudio eq_refl Ha)
      as [_ Hrej].
    exact (proj1 (Hrej (AxiosError "Request failed with status code 401"
                          (Some "Invalid credentials")) eq_refl)).
Defined.

(** ** Which fallback runs *)

Lemma tagged_eqb (requestId a b : string) :
  String.eqb (tagged requestId a) (tagged requestId b) = String.eqb a b.
Proof.
  unfold tagged. cbn [append String.eqb]. rewrite Ascii.eqb_refl.
  induction requestId as [|c r IH]; cbn [append String.eqb].
  - rewrite !Ascii.eqb_refl. reflexivity.
  - rewrite Ascii.eqb_refl. exact IH.
Qed.

Lemma process_success_inv (h : Host) (youtubeUrl : string) (tr tr' : trace)
    (d : ResultData) :
  processYouTubeTranscript h youtubeUrl tr = (Ret (Success d), tr') ->
  exists t lines audio data u us,
    awaitDownload (ytdl h youtubeUrl) [] = (t, lines, Ret audio) /\
    audio <> [] /\
    deepgram h audio = Ret data /\
    results_utterances data = Some (u :: us).
Proof.
  intros H.
  destruct (awaitDownload (ytdl h youtubeUrl) []) as [[t lines] [audio|e]] eqn:Hd.
  - destruct audio as [|b audio].
    + rewrite (process_download_empty h youtubeUrl tr t lines Hd) in H.
      discriminate.
    + assert (Ha : b :: audio <> []) by discriminate.
      destruct (deepgram h (b :: audio)) as [data|e] eqn:Hg.
      * destruct (results_utterances data) as [[|u us]|] eqn:Hu.
        -- rewrite (process_no_utterances h youtubeUrl tr t lines _ data Hd Ha Hg
                      (or_intror Hu)) in H.
           discriminate.
        -- exists t, lines, (b :: audio), data, u, us. auto.
        -- rewrite (process_no_utterances h youtubeUrl tr t lines _ data Hd Ha Hg
                      (or_introl Hu)) in H.
           discriminate.
      * rewrite (process_deepgram_rejected h youtubeUrl tr t lines _ e Hd Ha Hg) in H.
        discriminate.
  - rewrite (process_download_rejected h youtubeUrl tr t lines e Hd) in H.
    discriminate.
Qed.

(** Closes a goal [existsb f trace = false] on an explicit trace. *)
Ltac closeTrace Hlines Htag :=
  cbn [existsb app]; rewrite ?existsb_app; cbn [existsb];
  rewrite ?Hlines; rewrite ?Htag by reflexivity; reflexivity.

(** The line of the outer [catch] block is never written. *)
Lemma process_never_logs_simple_cleaning (h : Host) (youtubeUrl : string) :
  existsb (isSimpleCleaningLine h)
    (eventsOf (processYouTubeTranscript h youtubeUrl)) = false.
Proof.
  unfold eventsOf.
  destruct (awaitDownload (ytdl h youtubeUrl) []) as [[t lines] outcome] eqn:Hd.
  assert (Hlines : existsb (isSimpleCleaningLine h) lines = false).
  { destruct (awaitDownload_settles _ _ _ _ _ Hd)
      as [(_ & -> & _)|[(_ & error & _ & -> & _)|(_ & _ & a & -> & _)]];
      reflexivity. }
  assert (Htag : forall line,
             String.eqb line "Gemini cleaning failed, using simple cleaning..." = false ->
             isSimpleCleaningLine h (Log (tagged (substring 0 8 (uuidv4 h)) line)) = false).
  { intros line Hl. unfold isSimpleCleaningLine, simpleCleaningLine.
    now rewrite tagged_eqb. }
  destruct outcome as [audio|e].
  - destruct audio as [|b audio].
    + rewrite (process_download_empty h youtubeUrl [] t lines Hd). cbn [snd].
      closeTrace Hlines Htag.
    + assert (Ha : b :: audio <> []) by discriminate.
      destruct (deepgram h (b :: audio)) as [data|e] eqn:Hg.
      * destruct (results_utterances data) as [[|u us]|] eqn:Hu.
        -- rewrite (process_no_utterances h youtubeUrl [] t lines _ data Hd Ha Hg
                      (or_intror Hu)). cbn [snd].
           closeTrace Hlines Htag.
        -- destruct (process_cleaned h youtubeUrl [] t lines _ data u us Hd Ha Hg Hu)
             as (cleaned & tr' & Hc & Hp).
           rewrite Hp. cbn [snd].
           rewrite cleanTranscriptWithGemini_run in Hc.
           destruct (attemptOutcome h (map segmentOfUtterance (u :: us)));
             injection Hc as _ <-; closeTrace Hlines Htag.
        -- rewrite (process_no_utterances h youtubeUrl [] t lines _ data Hd Ha Hg
                      (or_introl Hu)). cbn [snd].
           closeTrace Hlines Htag.
      * rewrite (process_deepgram_rejected h youtubeUrl [] t lines _ e Hd Ha Hg).
        cbn [snd].
        closeTrace Hlines Htag.
  - rewrite (process_download_rejected h youtubeUrl [] t lines e Hd). cbn [snd].
    closeTrace Hlines Htag.
Qed.

(** The data of a successful result, in terms of the raw segments. *)
Lemma process_success_data (h : Host) (youtubeUrl : string) (tr tr' : trace)
    (d : ResultData) :
  processYouTubeTranscript h youtubeUrl tr = (Ret (Success d), tr') ->
  exists audio data utterances trc trc',
    deepgram h audio = Ret data /\
    results_utterances data = Some utterances /\
    utterances <> [] /\
    cleanTranscriptWithGemini h (map segmentOfUtterance utterances) trc =
      (Ret (cleanedSegments d), trc') /\
    videoUrl d = youtubeUrl /\
    totalDuration d = totalDurationOf (map segmentOfUtterance utterances) /\
    segmentCount d = List.length (map segmentOfUtterance utterances).
Proof.
  intros H.
  destruct (process_success_inv _ _ _ _ _ H)
    as (t & lines & audio & data & u & us & Hd & Ha & Hg & Hu).
  destruct (process_cleaned h youtubeUrl tr t lines audio data u us Hd Ha Hg Hu)
    as (cleaned & tr2 & Hc & Hp).
  rewrite Hp in H. injection H as <- _.
  exists audio, data, (u :: us). eexists. exists tr2.
  repeat split; try assumption; try reflexivity.
  - discriminate.
  - exact Hc.
Qed.

(** C3.  Whenever the [try] block of [cleanTranscriptWithGemini] fails, for
    whatever reason, its own [catch] block answers: the result is the input
    segments with their text unchanged as cleaned text and without original
    text.  The function never throws, so the [catch] block around its call
    in [processYouTubeTranscript] never runs: its console line is written in
    no run, and the cleaned segments of every successful result are those
    that [cleanTranscriptWithGemini] returned (the raw texts when its [try]
    block failed); [simpleCleanTranscript] is not reached. *)
Theorem gemini_failure_handled_inside
    (h : Host) (segments : list TranscriptSegment) (tr : trace)
    (youtubeUrl : string) :
  (forall e tr1,
     geminiAttempt h segments tr = (Throw e, tr1) ->
     cleanTranscriptWithGemini h segments tr =
     (Ret (map uncleanedSegment segments),
      tr1 ++ [LogError "Error cleaning transcript with Gemini:" e])) /\
  (forall seg,
     cs_cleanedText (uncleanedSegment seg) = Some (JStr (ts_text seg)) /\
     cs_originalText (uncleanedSegment seg) = None) /\
  (exists out tr', cleanTranscriptWithGemini h segments tr = (Ret out, tr')) /\
  ~ In (Log (simpleCleaningLine h))
       (eventsOf (processYouTubeTranscript h youtubeUrl)) /\
  (forall d tr',
     processYouTubeTranscript h youtubeUrl tr = (Ret (Success d), tr') ->
     exists segs trc trc',
       cleanTranscriptWithGemini h segs trc = (Ret (cleanedSegments d), trc') /\
       (forall e tr1,
          geminiAttempt h segs trc = (Throw e, tr1) ->
          cleanedSegments d = map uncleanedSegment segs)).
Proof.
  split; [|split; [|split; [|split]]].
  - intros e tr1 H. unfold cleanTranscriptWithGemini, tryCatch at 1.
    rewrite H. reflexivity.
  - intros seg. split; reflexivity.
  - apply cleanTranscriptWithGemini_returns.
  - intros Hin.
    pose proof (process_never_logs_simple_cleaning h youtubeUrl) as Hno.
    assert (Hex : existsb (isSimpleCleaningLine h)
                    (eventsOf (processYouTubeTranscript h youtubeUrl)) = true).
    { apply existsb_exists. exists (Log (simpleCleaningLine h)).
      split; [exact Hin|]. cbn [isSimpleCleaningLine]. apply String.eqb_refl. }
    rewrite Hno in Hex. discriminate.
  - intros d tr' H.
    destruct (process_success_data _ _ _ _ _ H)
      as (audio & data & utterances & trc & trc' & _ & _ & _ & Hc & _).
    exists (map segmentOfUtterance utterances), trc, trc'.
    split; [exact Hc|].
    intros e tr1 He. unfold cleanTranscriptWithGemini, tryCatch at 1 in Hc.
    rewrite He in Hc. unfoldM. injection Hc as <- _. reflexivity.
Qed.

Lemma gemini_failure_handled_inside_witness :
  cleanTranscriptWithGemini rejectingHost exampleSegments [] =
  (Ret (map uncleanedSegment exampleSegments),
   [Log "Sending request to Gemini..."; GeminiPost exampleSegments]
     ++ [LogError "Error cleaning transcript with Gemini:"
           (AxiosError "timeout of 80000ms exceeded" None)]).
Proof.
  destruct (gemini_failure_handled_inside rejectingHost exampleSegments []
              youtubeWatchUrl) as (Hcatch & _).
  apply (Hcatch (AxiosError "timeout of 80000ms exceeded" None)
           [Log "Sending request to Gemini..."; GeminiPost exampleSegments]).
  reflexivity.
Defined.

(** With the language model out of reach the pipeline returns the raw
    texts, not the locally cleaned ones. *)
Example rejected_call_returns_raw_text :
  exists d,
    fst (processYouTubeTranscript rejectingHost youtubeWatchUrl []) = Ret (Success d) /\
    cleanedSegments d = map uncleanedSegment exampleSegments /\
    cleanedSegments d <> simpleCleanTranscript exampleSegments.
Proof.
  eexists. split; [vm_compute; reflexivity|].
  split; [vm_compute; reflexivity|].
  vm_compute. discriminate.
Qed.

(** ** The totals of the result *)

Lemma totalDurationOf_last (segments : list TranscriptSegment) :
  totalDurationOf segments = last (map ts_end segments) 0%float.
Proof.
  destruct segments as [|s segments]; [reflexivity|].
  assert (Hne : s :: segments <> []) by discriminate.
  destruct (exists_last Hne) as (l & a & ->).
  unfold totalDurationOf. rewrite length_app. cbn [List.length].
    replace (0 <? List.length l + 1) with true
      by (symmetry; apply Nat.ltb_lt; lia).
    rewrite nth_error_app2 by lia.
    replace (List.length l + 1 - 1 - List.length l) with 0 by lia.
    cbn [nth_error]. rewrite map_app. cbn [map]. now rewrite last_last.
Qed.

Lemma last_map {A B} (f : A -> B) (l : list A) (d : A) :
  last (map f l) (f d) = f (last l d).
Proof.
  induction l as [|a l IH]; [reflexivity|].
  destruct l as [|a' l]; [reflexivity|]. exact IH.
Qed.

(** C6 (as amended).  In a successful result the two totals are computed
    from the raw segments of the transcription, not from the cleaned
    segments next to them: [totalDuration] is the end of the last raw
    segment (the expression yields 0 for an empty list), and [segmentCount]
    is the number of raw segments.  They are the totals of the cleaned
    segments of the result whenever the cleaning kept the timestamps. *)
Theorem result_totals_of_raw_segments
    (h : Host) (youtubeUrl : string) (tr tr' : trace) (d : ResultData) :
  processYouTubeTranscript h youtubeUrl tr = (Ret (Success d), tr') ->
  (forall segments,
     totalDurationOf segments = last (map ts_end segments) 0%float) /\
  exists audio data utterances,
    deepgram h audio = Ret data /\
    results_utterances data = Some utterances /\
    totalDuration d =
      last (map ts_end (map segmentOfUtterance utterances)) 0%float /\
    segmentCount d = List.length (map segmentOfUtterance utterances) /\
    (timestamps (cleanedSegments d) =
       rawTimestamps (map segmentOfUtterance utterances) ->
     segmentCount d = List.length (cleanedSegments d) /\
     last (map cs_end (cleanedSegments d)) (Some (JNum 0%float)) =
       Some (JNum (totalDuration d))).
Proof.
  intros H. split; [exact totalDurationOf_last|].
  destruct (process_success_data _ _ _ _ _ H)
    as (audio & data & utterances & trc & trc' & Hg & Hu & _ & _ & _ & Ht & Hn).
  exists audio, data, utterances.
  rewrite totalDurationOf_last in Ht.
  split; [exact Hg|]. split; [exact Hu|]. split; [exact Ht|].
  split; [exact Hn|].
  intros Hts. split.
  - rewrite Hn. symmetry. now apply timestamps_length_eq.
  - rewrite Ht, <- (last_map (fun x => Some (JNum x))). f_equal.
    apply (f_equal (map snd)) in Hts.
    unfold timestamps, rawTimestamps in Hts.
    rewrite !map_map in Hts. rewrite !map_map. exact Hts.
Qed.

Lemma result_totals_of_raw_segments_witness :
  (forall segments,
     totalDurationOf segments = last (map ts_end segments) 0%float) /\
  exists audio data utterances,
    deepgram wrappingHost audio = Ret data /\
    results_utterances data = Some utterances /\
    totalDuration wrappedResult =
      last (map ts_end (map segmentOfUtterance utterances)) 0%float /\
    segmentCount wrappedResult = List.length (map segmentOfUtterance utterances) /\
    (timestamps (cleanedSegments wrappedResult) =
       rawTimestamps (map segmentOfUtterance utterances) ->
     segmentCount wrappedResult = List.length (cleanedSegments wrappedResult) /\
     last (map cs_end (cleanedSegments wrappedResult)) (Some (JNum 0%float)) =
       Some (JNum (totalDuration wrappedResult))).
Proof.
  apply (result_totals_of_raw_segments wrappingHost youtubeWatchUrl []
           (snd (processYouTubeTranscript wrappingHost youtubeWatchUrl []))
           wrappedResult).
  vm_compute. reflexivity.
Defined.

(** C6 as stated fails for the cleaned segments that the result carries:
    when the language model answers with the empty array the result has no
    cleaned segment, yet counts two segments and lasts 6.5 seconds. *)
Lemma totals_disagree_with_cleaned_segments :
  exists d,
    fst (processYouTubeTranscript emptyArrayHost youtubeWatchUrl []) =
      Ret (Success d) /\
    cleanedSegments d = [] /\
    segmentCount d <> List.length (cleanedSegments d) /\
    totalDuration d <> 0%float.
Proof.
  eexists. split; [vm_compute; reflexivity|].
  split; [reflexivity|]. split; [cbn; discriminate|].
  cbn. intros H.
  apply (f_equal (fun x => PrimFloat.eqb x 0%float)) in H.
  vm_compute in H. discriminate H.
Qed.

(** ** The validation of the URL *)

Section Extension.

(** The text appended to the input. *)
Variable s : list ascii.
Variable i : bool.

Let extendsTo : Continuation -> Continuation -> Prop := continuationExtends s.

Lemma starLoop_extend (body : mstate -> Continuation -> option mstate) :
  (forall b a c c' k k',
     extendsTo k k' ->
     body (MState b a c) k <> None -> body (MState b (a ++ s) c') k' <> None) ->
  forall n n' b a c c' k k',
    n <= n' ->
    extendsTo k k' ->
    starLoop body k n (MState b a c) <> None ->
    starLoop body k' n' (MState b (a ++ s) c') <> None.
Proof.
  intros Hbody. induction n as [|n IH]; intros n' b a c c' k k' Hn Hk H.
  - cbn [starLoop] in H.
    destruct n' as [|n']; [exact (Hk _ _ _ _ H)|].
    rewrite starLoop_S.
    destruct (body (MState b (a ++ s) c') _); [discriminate | exact (Hk _ _ _ _ H)].
  - destruct n' as [|n']; [lia|].
    rewrite starLoop_S in H. rewrite starLoop_S.
    match type of H with context [body _ ?f] => set (cont := f) in H end.
    match goal with |- context [body _ ?f] => set (cont' := f) end.
    assert (Hext : extendsTo cont cont').
    { intros b1 a1 c1 c1' H1. unfold cont, cont' in *. cbn [after] in *.
      destruct (List.length a1 <? List.length a) eqn:Hlt; [|contradiction].
      apply Nat.ltb_lt in Hlt.
      replace (List.length (a1 ++ s) <? List.length (a ++ s)) with true
        by (symmetry; apply Nat.ltb_lt; rewrite !length_app; lia).
      apply (IH n' b1 a1 c1 c1' k k'); [lia | exact Hk | exact H1]. }
    pose proof (Hbody b a c c' cont cont' Hext) as Hb'.
    destruct (body (MState b a c) cont) as [e|].
    + specialize (Hb' ltac:(discriminate)).
      destruct (body (MState b (a ++ s) c') cont'); [discriminate | contradiction].
    + destruct (body (MState b (a ++ s) c') cont');
        [discriminate | exact (Hk _ _ _ _ H)].
Qed.

(** A match of a regular expression without [\b] is still found when text
    is appended to the input. *)
Lemma rmatch_extend (r : regex) :
  boundaryFree r = true ->
  forall b a c c' k k',
    extendsTo k k' ->
    rmatch i r (MState b a c) k <> None ->
    rmatch i r (MState b (a ++ s) c') k' <> None.
Proof.
  induction r as [|ch|p|r1 IH1 r2 IH2|r1 IH1 r2 IH2|r IH|n r IH| |];
    intros Hr b a c c' k k' Hk H.
  - exact (Hk _ _ _ _ H).
  - destruct a as [|x a]; [rewrite rmatch_Char_nil in H; contradiction|].
    cbn [app]. rewrite rmatch_Char_cons in *.
    destruct (charMatches i ch x); [exact (Hk _ _ _ _ H) | contradiction].
  - destruct a as [|x a]; [rewrite rmatch_Class_nil in H; contradiction|].
    cbn [app]. rewrite rmatch_Class_cons in *.
    destruct (p x); [exact (Hk _ _ _ _ H) | contradiction].
  - cbn [boundaryFree] in Hr. apply andb_prop in Hr as [Hr1 Hr2].
    rewrite rmatch_Seq in *. revert H.
    apply (IH1 Hr1 b a c c' (fun st' => rmatch i r2 st' k)
             (fun st' => rmatch i r2 st' k')).
    intros b1 a1 c1 c1'. apply (IH2 Hr2). exact Hk.
  - cbn [boundaryFree] in Hr. apply andb_prop in Hr as [Hr1 Hr2].
    cbn [rmatch] in *.
    destruct (rmatch i r1 (MState b a c) k) eqn:H1.
    + assert (H1' : rmatch i r1 (MState b a c) k <> None)
        by (rewrite H1; discriminate).
      apply (IH1 Hr1 b a c c' k k' Hk) in H1'.
      destruct (rmatch i r1 (MState b (a ++ s) c') k'); [discriminate | contradiction].
    + destruct (rmatch i r1 (MState b (a ++ s) c') k'); [discriminate|].
      apply (IH2 Hr2 b a c c' k k' Hk H).
  - cbn [boundaryFree] in Hr. rewrite rmatch_Star in *. cbn [after] in *.
    apply (starLoop_extend (rmatch i r) (IH Hr)
             (List.length a) (List.length (a ++ s)) b a c c' k k');
      [rewrite length_app; lia | exact Hk | exact H].
  - cbn [boundaryFree] in Hr. cbn [rmatch] in *. revert H.
    apply (IH Hr b a c c').
    intros b1 a1 c1 c1' H1. cbn [before after caps] in *.
    exact (Hk _ _ _ _ H1).
  - cbn [rmatch before] in *. destruct b; [exact (Hk _ _ _ _ H) | contradiction].
  - discriminate Hr.
Qed.

Lemma execFrom_extend (r : regex) :
  boundaryFree r = true ->
  forall aft bef,
    execFrom i r bef aft <> None -> execFrom i r bef (aft ++ s) <> None.
Proof.
  intros Hr. induction aft as [|x aft IH]; intros bef H.
  - cbn [execFrom] in H. cbn [app].
    destruct (matchHere i r bef []) eqn:Hm; [|contradiction].
    assert (Hm' : matchHere i r bef [] <> None) by (rewrite Hm; discriminate).
    unfold matchHere in Hm'.
    apply (rmatch_extend r Hr bef [] [] [] _ (fun st => Some st)) in Hm';
      [|intros; discriminate].
    cbn [app] in Hm'.
    destruct s as [|y s']; cbn [execFrom]; unfold matchHere;
      destruct (rmatch i r _ _); try discriminate; contradiction.
  - cbn [app execFrom] in *.
    destruct (matchHere i r bef (x :: aft)) eqn:Hm.
    + assert (Hm' : matchHere i r bef (x :: aft) <> None)
        by (rewrite Hm; discriminate).
      unfold matchHere in Hm'.
      apply (rmatch_extend r Hr bef (x :: aft) [] [] _ (fun st => Some st)) in Hm';
        [|intros; discriminate].
      cbn [app] in Hm'. unfold matchHere.
      destruct (rmatch i r _ _); [discriminate | contradiction].
    + destruct (matchHere i r bef (x :: aft ++ s)); [discriminate|].
      apply IH, H.
Qed.

End Extension.

(** A string accepted by [test] is accepted with any text appended. *)
Lemma test_extend (i : bool) (r : regex) (p s : string) :
  boundaryFree r = true ->
  test i r p = true -> test i r (p ++ s)%string = true.
Proof.
  intros Hr H. unfold test in *. rewrite chars_app.
  pose proof (execFrom_extend (chars s) i r Hr (chars p) []) as He.
  destruct (execFrom i r [] (chars p)); [|discriminate].
  destruct (execFrom i r [] (chars p ++ chars s)); [reflexivity|].
  exfalso. apply He; [discriminate | reflexivity].
Qed.

(** The pipeline never throws, and it opens the audio stream of the URL it
    was given. *)
Lemma process_returns (h : Host) (youtubeUrl : string) (tr : trace) :
  exists result tr',
    processYouTubeTranscript h youtubeUrl tr = (Ret result, tr') /\
    In (Ytdl youtubeUrl) tr'.
Proof.
  destruct (awaitDownload (ytdl h youtubeUrl) []) as [[t lines] [audio|e]] eqn:Hd.
  - destruct audio as [|b audio].
    + rewrite (process_download_empty h youtubeUrl tr t lines Hd).
      eexists. eexists. split; [reflexivity|].
      rewrite !in_app_iff. cbn [In]. tauto.
    + assert (Ha : b :: audio <> []) by discriminate.
      destruct (deepgram h (b :: audio)) as [data|e] eqn:Hg.
      * destruct (results_utterances data) as [[|u us]|] eqn:Hu.
        -- rewrite (process_no_utterances h youtubeUrl tr t lines _ data Hd Ha Hg
                      (or_intror Hu)).
           eexists. eexists. split; [reflexivity|].
           rewrite !in_app_iff. cbn [In]. tauto.
        -- destruct (process_cleaned h youtubeUrl tr t lines _ data u us Hd Ha Hg Hu)
             as (cleaned & tr' & Hc & Hp).
           rewrite Hp. eexists. eexists. split; [reflexivity|].
           rewrite cleanTranscriptWithGemini_run in Hc.
           destruct (attemptOutcome h (map segmentOfUtterance (u :: us)));
             injection Hc as _ <-; rewrite !in_app_iff; cbn [In]; tauto.
        -- rewrite (process_no_utterances h youtubeUrl tr t lines _ data Hd Ha Hg
                      (or_introl Hu)).
           eexists. eexists. split; [reflexivity|].
           rewrite !in_app_iff. cbn [In]. tauto.
      * rewrite (process_deepgram_rejected h youtubeUrl tr t lines _ e Hd Ha Hg).
        eexists. eexists. split; [reflexivity|].
        rewrite !in_app_iff. cbn [In]. tauto.
  - rewrite (process_download_rejected h youtubeUrl tr t lines e Hd).
    eexists. eexists. split; [reflexivity|].
    rewrite !in_app_iff. cbn [In]. tauto.
Qed.

(** C9.  A request without the [url] parameter is answered with status 400
    and [success: false], and so is a request whose [url] the regular
    expression does not accept, such as "not-a-youtube-link".  In both
    cases the trace is left as it was: nothing is written to the console,
    no external service is called, and the pipeline is not started. *)
Theorem GET_rejects_missing_or_malformed_url (h : Host) (tr : trace) :
  GET h {| searchParams_url := None |} tr =
    (Ret {| body := Failure "YouTube URL is required. Use ?url=<youtube_url>" None;
            status := 400 |}, tr) /\
  (forall youtubeUrl,
     test false youtubeRegex youtubeUrl = false ->
     exists error,
       GET h {| searchParams_url := Some youtubeUrl |} tr =
         (Ret {| body := Failure error None; status := 400 |}, tr) /\
       success (Failure error None) = false) /\
  test false youtubeRegex "not-a-youtube-link" = false.
Proof.
  split; [reflexivity|]. split; [|vm_compute; reflexivity].
  intros youtubeUrl Ht. unfold GET. unfoldM. cbn [searchParams_url].
  destruct (String.eqb youtubeUrl EmptyString).
  - eexists. split; reflexivity.
  - rewrite Ht. cbn [negb]. eexists. split; reflexivity.
Qed.

Lemma GET_rejects_missing_or_malformed_url_witness :
  exists error,
    GET rejectingHost {| searchParams_url := Some "not-a-youtube-link" |} [] =
      (Ret {| body := Failure error None; status := 400 |}, []) /\
    success (Failure error None) = false.
Proof.
  destruct (GET_rejects_missing_or_malformed_url rejectingHost []) as (_ & Hbad & Hex).
  exact (Hbad "not-a-youtube-link" Hex).
Defined.

Lemma youtubeRegex_boundaryFree : boundaryFree youtubeRegex = true.
Proof. reflexivity. Qed.

(** C10.  The regular expression is anchored at the start of the string
    only: if it accepts a string, it accepts that string followed by any
    text.  With both keys set, the handler then passes the whole string,
    unchanged, to the pipeline, which opens the audio stream with it, and
    answers with the result of the pipeline. *)
Theorem GET_accepts_any_continuation
    (h : Host) (tr : trace) (accepted rest : string) :
  test false youtubeRegex accepted = true ->
  falsy (DEEPGRAM_API_KEY h) = false ->
  falsy (GEMINI_API_KEY h) = false ->
  test false youtubeRegex (accepted ++ rest)%string = true /\
  exists result tr',
    processYouTubeTranscript h (accepted ++ rest)%string
      (tr ++ [Log ("Processing request for: " ++ accepted ++ rest)%string]) =
      (Ret result, tr') /\
    GET h {| searchParams_url := Some (accepted ++ rest)%string |} tr =
      (Ret {| body := result; status := if success result then 200 else 500 |},
       tr') /\
    In (Ytdl (accepted ++ rest)%string) tr'.
Proof.
  intros Ht Hd Hg.
  pose proof (test_extend false youtubeRegex accepted rest
                youtubeRegex_boundaryFree Ht) as Ht'.
  split; [exact Ht'|].
  destruct (process_returns h (accepted ++ rest)%string
              (tr ++ [Log ("Processing request for: " ++ accepted ++ rest)%string]))
    as (result & tr' & Hp & Hin).
  exists result, tr'. split; [exact Hp|]. split; [|exact Hin].
  unfold GET. unfoldM. cbn [searchParams_url].
  destruct (String.eqb (accepted ++ rest) EmptyString) eqn:He.
  - apply String.eqb_eq in He. rewrite He in Ht'. vm_compute in Ht'. discriminate.
  - rewrite Ht', Hd, Hg. cbn [negb]. rewrite Hp.
    destruct (success result); reflexivity.
Qed.

Lemma GET_accepts_any_continuation_witness :
  test false youtubeRegex
    (youtubeWatchUrl ++ " and then https://example.org/anything")%string = true.
Proof.
  exact (proj1 (GET_accepts_any_continuation wrappingHost [] youtubeWatchUrl
                  " and then https://example.org/anything"
                  eq_refl eq_refl eq_refl)).
Defined.

(** The whole string reaches the result. *)
Example trailing_text_is_forwarded :
  exists d,
    fst (GET wrappingHost
           {| searchParams_url :=
                Some (youtubeWatchUrl ++ " and then https://example.org/anything")%string |}
           []) =
    Ret {| body := Success d; status := 200 |} /\
    videoUrl d = (youtubeWatchUrl ++ " and then https://example.org/anything")%string.
Proof.
  eexists. split; vm_compute; reflexivity.
Qed.

(** * Further properties of the route *)

(** ** The handler *)

Lemma test_youtubeRegex_nonempty (youtubeUrl : string) :
  test false youtubeRegex youtubeUrl = true ->
  String.eqb youtubeUrl EmptyString = false.
Proof.
  intros Ht. destruct (String.eqb youtubeUrl EmptyString) eqn:He; [|reflexivity].
  apply String.eqb_eq in He. subst. vm_compute in Ht. discriminate.
Qed.

(** X1.  A request with an accepted URL is answered with status 500 and the
    name of the missing variable when a key is absent or empty, the
    transcription key being checked first; the trace is left as it was, so
    no service is called and nothing is downloaded. *)
Theorem GET_requires_both_keys (h : Host) (tr : trace) (youtubeUrl : string) :
  test false youtubeRegex youtubeUrl = true ->
  (falsy (DEEPGRAM_API_KEY h) = true ->
   GET h {| searchParams_url := Some youtubeUrl |} tr =
   (Ret {| body := Failure "DEEPGRAM_API_KEY environment variable is not set" None;
           status := 500 |}, tr)) /\
  (falsy (DEEPGRAM_API_KEY h) = false ->
   falsy (GEMINI_API_KEY h) = true ->
   GET h {| searchParams_url := Some youtubeUrl |} tr =
   (Ret {| body := Failure "GEMINI_API_KEY environment variable is not set" None;
           status := 500 |}, tr)).
Proof.
  intros Ht. pose proof (test_youtubeRegex_nonempty _ Ht) as He.
  split.
  - intros Hd. unfold GET. unfoldM. cbn [searchParams_url].
    rewrite He, Ht, Hd. reflexivity.
  - intros Hd Hg. unfold GET. unfoldM. cbn [searchParams_url].
    rewrite He, Ht, Hd, Hg. reflexivity.
Qed.

Lemma GET_requires_both_keys_witness :
  GET noKeysHost {| searchParams_url := Some youtubeWatchUrl |} [] =
  (Ret {| body := Failure "DEEPGRAM_API_KEY environment variable is not set" None;
          status := 500 |}, []) /\
  GET noGeminiKeyHost {| searchParams_url := Some youtubeWatchUrl |} [] =
  (Ret {| body := Failure "GEMINI_API_KEY environment variable is not set" None;
          status := 500 |}, []).
Proof.
  split.
  - exact (proj1 (GET_requires_both_keys noKeysHost [] youtubeWatchUrl eq_refl)
             eq_refl).
  - exact (proj2 (GET_requires_both_keys noGeminiKeyHost [] youtubeWatchUrl eq_refl)
             eq_refl eq_refl).
Defined.

(** X2.  The handler never throws.  Its status is 400 exactly when the
    request has no accepted URL, and then the trace is left as it was; it is
    200 exactly when the body is a success; in every other case it is
    500. *)
Theorem GET_always_answers (h : Host) (request : Request) (tr : trace) :
  exists response tr',
    GET h request tr = (Ret response, tr') /\
    (status response = 400 <-> hasValidUrl request = false) /\
    (status response = 400 -> tr' = tr) /\
    (status response = 200 <-> success (body response) = true) /\
    (status response = 200 \/ status response = 400 \/ status response = 500).
Proof.
  unfold GET, hasValidUrl. unfoldM. destruct request as [[youtubeUrl|]].
  2:{ eexists. eexists. split; [reflexivity|]. cbn.
      repeat split; auto; discriminate. }
  cbn [searchParams_url].
  destruct (String.eqb youtubeUrl EmptyString).
  { eexists. eexists. split; [reflexivity|]. cbn.
    repeat split; auto; discriminate. }
  destruct (test false youtubeRegex youtubeUrl).
  2:{ eexists. eexists. split; [reflexivity|]. cbn.
      repeat split; auto; discriminate. }
  cbn [negb andb].
  destruct (falsy (DEEPGRAM_API_KEY h)).
  { eexists. eexists. split; [reflexivity|]. cbn.
    repeat split; auto; discriminate. }
  destruct (falsy (GEMINI_API_KEY h)).
  { eexists. eexists. split; [reflexivity|]. cbn.
    repeat split; auto; discriminate. }
  destruct (process_returns h youtubeUrl
              (tr ++ [Log ("Processing request for: " ++ youtubeUrl)%string]))
    as (result & tr' & Hp & _).
  rewrite Hp.
  destruct result as [d|error requestId]; cbn [success];
    eexists; eexists; (split; [reflexivity|]); cbn;
    repeat split; auto; discriminate.
Qed.

(** ** The pipeline *)

Lemma awaitDownload_lines_internal (events : list (Z * StreamEvent))
    (chunks : list (list byte)) (t : Z) (lines : list event)
    (outcome : res (list byte)) :
  awaitDownload events chunks = (t, lines, outcome) ->
  filter isExternalCall lines = [].
Proof.
  intros Hd.
  destruct (awaitDownload_settles _ _ _ _ _ Hd)
    as [(_ & -> & _)|[(_ & error & _ & -> & _)|(_ & _ & a & -> & _)]];
    reflexivity.
Qed.

(** X3.  One run of the pipeline calls each external service at most once,
    in the order download, transcription, language model, and never
    retries.  The transcription service is only ever sent a non-empty
    buffer, and the language model only ever a non-empty list of segments,
    those of the utterances. *)
Theorem pipeline_calls_each_service_once (h : Host) (youtubeUrl : string) :
  externalCalls (processYouTubeTranscript h youtubeUrl) = [Ytdl youtubeUrl] \/
  (exists audio,
     audio <> [] /\
     externalCalls (processYouTubeTranscript h youtubeUrl) =
       [Ytdl youtubeUrl; DeepgramPost audio]) \/
  (exists audio data utterances,
     audio <> [] /\ utterances <> [] /\
     deepgram h audio = Ret data /\
     results_utterances data = Some utterances /\
     externalCalls (processYouTubeTranscript h youtubeUrl) =
       [Ytdl youtubeUrl; DeepgramPost audio;
        GeminiPost (map segmentOfUtterance utterances)]).
Proof.
  unfold externalCalls, eventsOf.
  destruct (awaitDownload (ytdl h youtubeUrl) []) as [[t lines] outcome] eqn:Hd.
  pose proof (awaitDownload_lines_internal _ _ _ _ _ Hd) as Hlines.
  destruct outcome as [audio|e].
  - destruct audio as [|b audio].
    + left. rewrite (process_download_empty h youtubeUrl [] t lines Hd).
      cbn [snd]. rewrite !filter_external_app, Hlines. reflexivity.
    + assert (Ha : b :: audio <> []) by discriminate.
      destruct (deepgram h (b :: audio)) as [data|e] eqn:Hg.
      * destruct (results_utterances data) as [[|u us]|] eqn:Hu.
        -- right. left. exists (b :: audio). split; [exact Ha|].
           rewrite (process_no_utterances h youtubeUrl [] t lines _ data Hd Ha Hg
                      (or_intror Hu)).
           cbn [snd]. rewrite !filter_external_app, Hlines. reflexivity.
        -- right. right. exists (b :: audio), data, (u :: us).
           split; [exact Ha|]. split; [discriminate|].
           split; [exact Hg|]. split; [exact Hu|].
           destruct (process_cleaned h youtubeUrl [] t lines _ data u us Hd Ha Hg Hu)
             as (cleaned & tr' & Hc & Hp).
           rewrite Hp. cbn [snd].
           rewrite cleanTranscriptWithGemini_run in Hc.
           destruct (attemptOutcome h (map segmentOfUtterance (u :: us)));
             injection Hc as _ <-;
             cbn [app filter isExternalCall];
             rewrite !filter_external_app, Hlines; reflexivity.
        -- right. left. exists (b :: audio). split; [exact Ha|].
           rewrite (process_no_utterances h youtubeUrl [] t lines _ data Hd Ha Hg
                      (or_introl Hu)).
           cbn [snd]. rewrite !filter_external_app, Hlines. reflexivity.
      * right. left. exists (b :: audio). split; [exact Ha|].
        rewrite (process_deepgram_rejected h youtubeUrl [] t lines _ e Hd Ha Hg).
        cbn [snd]. rewrite !filter_external_app, Hlines. reflexivity.
  - left. rewrite (process_download_rejected h youtubeUrl [] t lines e Hd).
    cbn [snd]. rewrite !filter_external_app, Hlines. reflexivity.
Qed.

(** X4.  The pipeline succeeds exactly when the download delivers a
    non-empty buffer and the transcription service answers with at least one
    utterance: no outcome of the call to the language model, and no reply of
    it, makes the request fail.  A successful result carries the URL as it
    was given. *)
Theorem pipeline_succeeds_iff (h : Host) (youtubeUrl : string) :
  ((exists d, fst (processYouTubeTranscript h youtubeUrl []) = Ret (Success d)) <->
   (exists t lines audio data u us,
      awaitDownload (ytdl h youtubeUrl) [] = (t, lines, Ret audio) /\
      audio <> [] /\
      deepgram h audio = Ret data /\
      results_utterances data = Some (u :: us))) /\
  (forall d,
     fst (processYouTubeTranscript h youtubeUrl []) = Ret (Success d) ->
     videoUrl d = youtubeUrl).
Proof.
  split; [split|].
  - intros (d & Hd).
    destruct (processYouTubeTranscript h youtubeUrl []) as [r tr'] eqn:Hp.
    cbn [fst] in Hd. subst r.
    exact (process_success_inv _ _ _ _ _ Hp).
  - intros (t & lines & audio & data & u & us & Hd & Ha & Hg & Hu).
    destruct (process_cleaned h youtubeUrl [] t lines audio data u us Hd Ha Hg Hu)
      as (cleaned & tr' & _ & Hp).
    rewrite Hp. eexists. reflexivity.
  - intros d Hd.
    destruct (processYouTubeTranscript h youtubeUrl []) as [r tr'] eqn:Hp.
    cbn [fst] in Hd. subst r.
    destruct (process_success_data _ _ _ _ _ Hp)
      as (audio & data & utterances & trc & trc' & _ & _ & _ & _ & Hv & _).
    exact Hv.
Qed.

(** ** The audio download, continued *)

Lemma awaitDownload_data (timed : list (Z * list byte)) :
  allBefore downloadTimeoutMs timed = true ->
  forall rest chunks,
    awaitDownload (dataEvents timed ++ rest) chunks =
    awaitDownload rest (chunks ++ map snd timed).
Proof.
  induction timed as [|[t c] timed IH]; intros Hb rest chunks.
  - cbn [dataEvents map app]. now rewrite app_nil_r.
  - cbn [allBefore forallb fst] in Hb. apply andb_prop in Hb as [Ht Hb].
    apply Z.ltb_lt in Ht.
    cbn [dataEvents map app fst snd awaitDownload].
    replace (downloadTimeoutMs <=? t)%Z with false
      by (symmetry; apply Z.leb_gt; exact Ht).
    fold (dataEvents timed). rewrite (IH Hb). now rewrite <- app_assoc.
Qed.

(** X5.  When every chunk, and then the end of the stream, is delivered
    before 90000 ms, the download resolves, at the time of the end, with the
    chunks concatenated in the order of their delivery, none dropped;
    whatever the stream delivers after its end is ignored. *)
Theorem download_concatenates_chunks
    (timed : list (Z * list byte)) (t : Z) (rest : list (Z * StreamEvent)) :
  allBefore 90000 timed = true ->
  (t < 90000)%Z ->
  awaitDownload (dataEvents timed ++ (t, End) :: rest) [] =
  (t,
   [Log ("Audio buffer size: "
           ++ showNat (List.length (List.concat (map snd timed))) ++ " bytes")%string],
   Ret (List.concat (map snd timed))).
Proof.
  intros Hb Ht. rewrite (awaitDownload_data timed Hb).
  cbn [awaitDownload app].
  replace (downloadTimeoutMs <=? t)%Z with false
    by (symmetry; apply Z.leb_gt; exact Ht).
  reflexivity.
Qed.

Lemma download_concatenates_chunks_witness :
  awaitDownload exampleStream [] =
  (500%Z, [Log "Audio buffer size: 5 bytes"], Ret exampleAudio).
Proof.
  exact (download_concatenates_chunks
           [(120%Z, [x49; x44; x33]); (340%Z, [x04; x00])] 500%Z []
           eq_refl eq_refl).
Defined.

(** X6.  A stream whose end (or error) has not been delivered before
    90000 ms fails with the timeout, however many chunks were received in
    time and whatever is delivered afterwards: nothing of a slow download is
    kept. *)
Theorem download_late_end_times_out
    (timed : list (Z * list byte)) (t : Z) (ev : StreamEvent)
    (rest : list (Z * StreamEvent)) :
  allBefore 90000 timed = true ->
  (90000 <= t)%Z ->
  awaitDownload (dataEvents timed ++ (t, ev) :: rest) [] =
  (90000%Z, [], Throw (JsError "Audio download timeout after 90 seconds")) /\
  awaitDownload (dataEvents timed) [] =
  (90000%Z, [], Throw (JsError "Audio download timeout after 90 seconds")).
Proof.
  intros Hb Ht. split.
  - rewrite (awaitDownload_data timed Hb). cbn [awaitDownload app].
    replace (downloadTimeoutMs <=? t)%Z with true
      by (symmetry; apply Z.leb_le; exact Ht).
    reflexivity.
  - rewrite <- (app_nil_r (dataEvents timed)).
    rewrite (awaitDownload_data timed Hb). reflexivity.
Qed.

Lemma download_late_end_times_out_witness :
  awaitDownload [ (120%Z, Data [x49; x44; x33]); (95000%Z, End) ] [] =
  (90000%Z, [], Throw (JsError "Audio download timeout after 90 seconds")).
Proof.
  exact (proj1 (download_late_end_times_out [(120%Z, [x49; x44; x33])]
                  95000%Z End [] eq_refl ltac:(discriminate))).
Defined.

(** ** The cleaned segments of the response *)

Lemma mapRes_cleanedOfReply_originalText (items : list json)
    (out : list CleanedSegment) :
  mapRes cleanedOfReply items = Ret out ->
  Forall (fun c => cs_originalText c = None) out.
Proof.
  revert out; induction items as [|v items IH]; cbn [mapRes]; intros out H.
  - injection H as <-. constructor.
  - destruct (cleanedOfReply v) as [c|e] eqn:Hv; [|discriminate].
    destruct (mapRes cleanedOfReply items) as [cs|e]; [|discriminate].
    injection H as <-. constructor; [|apply IH; reflexivity].
    destruct v; cbn [cleanedOfReply] in Hv; try discriminate;
      injection Hv as <-; reflexivity.
Qed.

(** X7.  No cleaned segment of a successful result has an original text:
    the one the language model is asked to return is not read from its
    reply, the fallback inside [cleanTranscriptWithGemini] does not set it,
    and the local cleaning, which would, does not run. *)
Theorem response_never_has_originalText
    (h : Host) (youtubeUrl : string) (tr tr' : trace) (d : ResultData) :
  processYouTubeTranscript h youtubeUrl tr = (Ret (Success d), tr') ->
  Forall (fun c => cs_originalText c = None) (cleanedSegments d).
Proof.
  intros H.
  destruct (process_success_data _ _ _ _ _ H)
    as (audio & data & utterances & trc & trc' & _ & _ & _ & Hc & _).
  rewrite cleanTranscriptWithGemini_run in Hc.
  destruct (attemptOutcome h (map segmentOfUtterance utterances)) as [out|e] eqn:Ho.
  - injection Hc as <- _.
    destruct (attemptOutcome_Ret _ _ _ Ho) as (items & text & m & _ & _ & _ & Hm).
    exact (mapRes_cleanedOfReply_originalText _ _ Hm).
  - injection Hc as <- _. apply Forall_forall. intros c Hin.
    apply in_map_iff in Hin as (seg & <- & _). reflexivity.
Qed.

Lemma response_never_has_originalText_witness :
  Forall (fun c => cs_originalText c = None) (cleanedSegments wrappedResult).
Proof.
  apply (response_never_has_originalText wrappingHost youtubeWatchUrl []
           (snd (processYouTubeTranscript wrappingHost youtubeWatchUrl []))
           wrappedResult).
  vm_compute. reflexivity.
Defined.

(** ** The extraction of the array, in general *)

Lemma split_at_first (c : ascii) (l : list ascii) :
  forallb (fun x => negb (Ascii.eqb x c)) l = true \/
  exists p r, l = p ++ c :: r /\ forallb (fun x => negb (Ascii.eqb x c)) p = true.
Proof.
  induction l as [|x l IH]; [left; reflexivity|].
  destruct (Ascii.eqb x c) eqn:Hx.
  - right. apply Ascii.eqb_eq in Hx. subst. exists [], l. split; reflexivity.
  - destruct IH as [IH|(p & r & -> & Hp)].
    + left. cbn [forallb]. now rewrite Hx, IH.
    + right. exists (x :: p), r. split; [reflexivity|].
      cbn [forallb]. now rewrite Hx, Hp.
Qed.

Lemma split_at_last (c : ascii) (l : list ascii) :
  forallb (fun x => negb (Ascii.eqb x c)) l = true \/
  exists b s, l = b ++ c :: s /\ forallb (fun x => negb (Ascii.eqb x c)) s = true.
Proof.
  induction l as [|x l IH]; [left; reflexivity|].
  destruct IH as [IH|(b & s & -> & Hs)].
  - destruct (Ascii.eqb x c) eqn:Hx.
    + right. apply Ascii.eqb_eq in Hx. subst. exists [], l. split; [reflexivity|exact IH].
    + left. cbn [forallb]. now rewrite Hx, IH.
  - right. exists (x :: b), s. split; [reflexivity | exact Hs].
Qed.

(** Without a closing bracket ahead no attempt succeeds, wherever it starts. *)
Lemma matchHere_no_closing (l : list ascii) :
  forallb (fun x => negb (Ascii.eqb x "]")) l = true ->
  forall bef, matchHere false jsonArrayRegex bef l = None.
Proof.
  intros Hl bef. unfold matchHere, jsonArrayRegex.
  destruct l as [|x l]; [reflexivity|].
  rewrite rmatch_Seq, rmatch_Char_cons.
  destruct (charMatches false "[" x); [|reflexivity].
  rewrite rmatch_Seq, rmatch_Star. cbn [after].
  cbn [forallb] in Hl. apply andb_prop in Hl as [_ Hl].
  apply (starLoop_no_closing l Hl).
Qed.

Lemma execFrom_no_closing (l : list ascii) :
  forallb (fun x => negb (Ascii.eqb x "]")) l = true ->
  forall bef, execFrom false jsonArrayRegex bef l = None.
Proof.
  induction l as [|x l IH]; intros Hl bef.
  - reflexivity.
  - cbn [execFrom]. rewrite (matchHere_no_closing _ Hl).
    cbn [forallb] in Hl. apply andb_prop in Hl as [_ Hl]. apply (IH Hl).
Qed.

Lemma execFrom_no_opening (l : list ascii) :
  forallb (fun x => negb (Ascii.eqb x "[")) l = true ->
  forall bef, execFrom false jsonArrayRegex bef l = None.
Proof.
  induction l as [|x l IH]; intros Hl bef.
  - reflexivity.
  - cbn [forallb] in Hl. apply andb_prop in Hl as [Hx Hl].
    cbn [execFrom]. rewrite (matchHere_not_bracket _ _ _ Hx). apply (IH Hl).
Qed.

Lemma execFrom_skip_prefix (p l : list ascii) :
  forallb (fun x => negb (Ascii.eqb x "[")) p = true ->
  forall bef,
    execFrom false jsonArrayRegex bef (p ++ l) =
    execFrom false jsonArrayRegex (rev p ++ bef) l.
Proof.
  intros Hp. induction p as [|x p IH]; intros bef.
  - reflexivity.
  - cbn [forallb] in Hp. apply andb_prop in Hp as [Hx Hp].
    cbn [app execFrom]. rewrite (matchHere_not_bracket _ _ _ Hx).
    rewrite (IH Hp). cbn [rev]. now rewrite <- app_assoc.
Qed.

(** X8.  The extraction finds a text exactly when some closing bracket
    follows the first opening bracket of the reply, and the text it finds is
    always the one from that first opening bracket to the last closing
    bracket of the reply: it starts with an opening bracket, ends with a
    closing bracket, and is a contiguous part of the reply. *)
Theorem jsonMatch_characterised (text m : string) :
  jsonMatch text = Some m <->
  exists prefix body suffix,
    text = (prefix ++ "[" ++ body ++ "]" ++ suffix)%string /\
    lacks "[" prefix = true /\
    lacks "]" suffix = true /\
    m = ("[" ++ body ++ "]")%string.
Proof.
  split.
  - intros H.
    destruct (split_at_first "[" (chars text)) as [Hno|(p & r & Ht & Hp)].
    { unfold jsonMatch, match0 in H.
      rewrite (execFrom_no_opening _ Hno) in H. discriminate. }
    destruct (split_at_last "]" r) as [Hno|(b & s & -> & Hs)].
    { unfold jsonMatch, match0 in H. rewrite Ht in H.
      rewrite (execFrom_skip_prefix p ("["%char :: r) Hp []) in H.
      assert (Hl : forallb (fun x => negb (Ascii.eqb x "]")) ("["%char :: r) = true)
        by (cbn [forallb]; rewrite Hno; reflexivity).
      rewrite (execFrom_no_closing _ Hl) in H. discriminate. }
    assert (Etext : text = (str p ++ "[" ++ str b ++ "]" ++ str s)%string).
    { rewrite <- (str_chars text), Ht.
      change ("["%char :: b ++ "]"%char :: s)
        with (chars "[" ++ b ++ chars "]" ++ s).
      rewrite !str_app, !str_chars. reflexivity. }
    exists (str p), (str b), (str s).
    assert (Hp' : lacks "[" (str p) = true) by (unfold lacks; now rewrite chars_str).
    assert (Hs' : lacks "]" (str s) = true) by (unfold lacks; now rewrite chars_str).
    split; [exact Etext|]. split; [exact Hp'|]. split; [exact Hs'|].
    rewrite Etext in H.
    rewrite (jsonMatch_first_to_last _ _ _ Hp' Hs') in H.
    injection H as <-. reflexivity.
  - intros (prefix & body & suffix & -> & Hp & Hs & ->).
    apply jsonMatch_first_to_last; assumption.
Qed.

(** ** The matcher and what it matches *)

Section MatcherMeaning.

Variable i : bool.

Lemma starLoop_accepts_here (body : mstate -> Continuation -> option mstate)
    (k : Continuation) (n : nat) (st : mstate) :
  k st <> None -> starLoop body k n st <> None.
Proof.
  intros Hk. destruct n as [|n]; [exact Hk|].
  rewrite starLoop_S. destruct (body st _); [discriminate | exact Hk].
Qed.

(** Whatever the matcher finds is a match: the continuation was reached
    after a text that the regular expression matches. *)
Lemma rmatch_sound (r : regex) :
  forall b l c k e,
    rmatch i r (MState b l c) k = Some e ->
    exists w a c',
      l = w ++ a /\ Matches i r b w a /\ k (MState (rev w ++ b) a c') = Some e.
Proof.
  induction r as [|ch|p|r1 IH1 r2 IH2|r1 IH1 r2 IH2|r IH|n r IH| |];
    intros b l c k e H.
  - exists [], l, c. repeat split; [constructor | exact H].
  - destruct l as [|x l]; [rewrite rmatch_Char_nil in H; discriminate|].
    rewrite rmatch_Char_cons in H.
    destruct (charMatches i ch x) eqn:Hx; [|discriminate].
    exists [x], l, c. repeat split; [now constructor | exact H].
  - destruct l as [|x l]; [rewrite rmatch_Class_nil in H; discriminate|].
    rewrite rmatch_Class_cons in H.
    destruct (p x) eqn:Hx; [|discriminate].
    exists [x], l, c. repeat split; [now constructor | exact H].
  - rewrite rmatch_Seq in H.
    destruct (IH1 _ _ _ _ _ H) as (w1 & a1 & c1 & -> & M1 & H1).
    destruct (IH2 _ _ _ _ _ H1) as (w2 & a2 & c2 & -> & M2 & H2).
    exists (w1 ++ w2), a2, c2. split; [now rewrite app_assoc|].
    split; [now constructor|].
    now rewrite rev_app_distr, <- app_assoc.
  - cbn [rmatch] in H.
    destruct (rmatch i r1 (MState b l c) k) as [e1|] eqn:H1.
    + injection H as <-.
      destruct (IH1 _ _ _ _ _ H1) as (w & a & c' & -> & M & Hk).
      exists w, a, c'. repeat split; [now apply MAltL | exact Hk].
    + destruct (IH2 _ _ _ _ _ H) as (w & a & c' & -> & M & Hk).
      exists w, a, c'. repeat split; [now apply MAltR | exact Hk].
  - rewrite rmatch_Star in H. cbn [after] in H.
    remember (List.length l) as n eqn:Hn. clear Hn.
    revert b l c H. induction n as [|n IHn]; intros b l c H.
    + cbn [starLoop] in H. exists [], l, c.
      repeat split; [constructor | exact H].
    + rewrite starLoop_S in H.
      destruct (rmatch i r (MState b l c) _) as [e1|] eqn:H1.
      * injection H as <-.
        destruct (IH _ _ _ _ _ H1) as (w1 & a1 & c1 & -> & M1 & Hc).
        cbn [after] in Hc.
        destruct (List.length a1 <? List.length (w1 ++ a1)) eqn:Hlt; [|discriminate].
        apply Nat.ltb_lt in Hlt. rewrite length_app in Hlt.
        assert (Hw1 : w1 <> []) by (intros ->; cbn in Hlt; lia).
        destruct (IHn _ _ _ Hc) as (w2 & a2 & c2 & -> & M2 & Hk).
        exists (w1 ++ w2), a2, c2. split; [now rewrite app_assoc|].
        split; [now constructor|].
        now rewrite rev_app_distr, <- app_assoc.
      * exists [], l, c. repeat split; [constructor | exact H].
  - cbn [rmatch] in H.
    destruct (IH _ _ _ _ _ H) as (w & a & c' & -> & M & Hk).
    cbn [before after caps] in Hk.
    eexists w, a, _. repeat split; [now constructor | exact Hk].
  - cbn [rmatch before] in H. destruct b; [|discriminate].
    exists [], l, c. repeat split; [constructor | exact H].
  - cbn [rmatch before after] in H.
    destruct (xorb (isWordAt b) (isWordAt l)) eqn:Hx; [|discriminate].
    exists [], l, c. repeat split; [now constructor | exact H].
Qed.

(** Whatever the regular expression matches, the matcher finds a match,
    provided the continuation accepts after it. *)
Lemma rmatch_complete (r : regex) (b w a : list ascii) :
  Matches i r b w a ->
  (forall c k,
     acceptsAt k (rev w ++ b) a ->
     rmatch i r (MState b (w ++ a) c) k <> None) /\
  (forall r', r = Star r' ->
     forall n c k,
       List.length (w ++ a) <= n ->
       acceptsAt k (rev w ++ b) a ->
       starLoop (rmatch i r') k n (MState b (w ++ a) c) <> None).
Proof.
  induction 1 as [b a|ch x b a Hx|p x b a Hx
                  |r1 r2 b w1 w2 a M1 IH1 M2 IH2
                  |r1 r2 b w a M IH|r1 r2 b w a M IH
                  |r b a|r b w1 w2 a Hw1 M1 IH1 M2 IH2
                  |n r b w a M IH|a|b a Hx];
    (split; [|try (intros r' E; discriminate E)]).
  - intros c k Hk. apply Hk.
  - intros c k Hk. cbn [app]. rewrite rmatch_Char_cons, Hx. apply Hk.
  - intros c k Hk. cbn [app]. rewrite rmatch_Class_cons, Hx. apply Hk.
  - intros c k Hk. rewrite rmatch_Seq, <- app_assoc.
    apply (proj1 IH1). intros c1. apply (proj1 IH2).
    intros c2. rewrite app_assoc, <- rev_app_distr. apply Hk.
  - intros c k Hk. cbn [rmatch].
    pose proof (proj1 IH c k Hk) as H1.
    destruct (rmatch i r1 (MState b (w ++ a) c) k); [discriminate | contradiction].
  - intros c k Hk. cbn [rmatch].
    destruct (rmatch i r1 (MState b (w ++ a) c) k); [discriminate|].
    apply (proj1 IH c k Hk).
  - intros c k Hk. rewrite rmatch_Star. apply starLoop_accepts_here, Hk.
  - intros r' E n c k Hn Hk. apply starLoop_accepts_here, Hk.
  - intros c k Hk. rewrite rmatch_Star. cbn [after].
    assert (Hl1 : 1 <= List.length w1) by (destruct w1; [contradiction | cbn; lia]).
    destruct (List.length ((w1 ++ w2) ++ a)) as [|n] eqn:Hn.
    { rewrite !length_app in Hn. lia. }
    rewrite starLoop_S, <- app_assoc.
    match goal with |- context [rmatch i r _ ?f] => set (cont := f) end.
    assert (Hb : rmatch i r (MState b (w1 ++ w2 ++ a) c) cont <> None).
    { apply (proj1 IH1). intros c1. unfold cont. cbn [after].
      replace (List.length (w2 ++ a) <? List.length (w1 ++ w2 ++ a)) with true
        by (symmetry; apply Nat.ltb_lt; rewrite (length_app w1); lia).
      apply (proj2 IH2 r eq_refl).
      - rewrite !length_app in Hn. rewrite length_app. lia.
      - intros c2. rewrite app_assoc, <- rev_app_distr. apply Hk. }
    destruct (rmatch i r (MState b (w1 ++ w2 ++ a) c) cont);
      [discriminate | contradiction].
  - intros r' E n c k Hn Hk. injection E as <-.
    assert (Hl1 : 1 <= List.length w1) by (destruct w1; [contradiction | cbn; lia]).
    destruct n as [|n].
    { rewrite !length_app in Hn. lia. }
    rewrite starLoop_S, <- app_assoc.
    match goal with |- context [rmatch i r _ ?f] => set (cont := f) end.
    assert (Hb : rmatch i r (MState b (w1 ++ w2 ++ a) c) cont <> None).
    { apply (proj1 IH1). intros c1. unfold cont. cbn [after].
      replace (List.length (w2 ++ a) <? List.length (w1 ++ w2 ++ a)) with true
        by (symmetry; apply Nat.ltb_lt; rewrite (length_app w1); lia).
      apply (proj2 IH2 r eq_refl).
      - rewrite !length_app in Hn. rewrite length_app. lia.
      - intros c2. rewrite app_assoc, <- rev_app_distr. apply Hk. }
    destruct (rmatch i r (MState b (w1 ++ w2 ++ a) c) cont);
      [discriminate | contradiction].
  - intros c k Hk. cbn [rmatch]. apply (proj1 IH). intros c1.
    cbn [before after caps]. apply Hk.
  - intros c k Hk. apply Hk.
  - intros c k Hk. cbn [rmatch before after app]. rewrite Hx. apply Hk.
Qed.

(** [execFrom] finds a match exactly when there is one somewhere. *)
Lemma execFrom_sound (r : regex) :
  forall l bef st e,
    execFrom i r bef l = Some (st, e) ->
    exists p w a, l = p ++ w ++ a /\ Matches i r (rev p ++ bef) w a.
Proof.
  induction l as [|x l IH]; intros bef st e H; cbn [execFrom] in H.
  - destruct (matchHere i r bef []) as [e1|] eqn:Hm; [|discriminate].
    unfold matchHere in Hm.
    destruct (rmatch_sound _ _ _ _ _ _ Hm) as (w & a & c' & E & M & _).
    exists [], w, a. split; [exact E | exact M].
  - destruct (matchHere i r bef (x :: l)) as [e1|] eqn:Hm.
    + unfold matchHere in Hm.
      destruct (rmatch_sound _ _ _ _ _ _ Hm) as (w & a & c' & E & M & _).
      exists [], w, a. split; [exact E | exact M].
    + destruct (IH _ _ _ H) as (p & w & a & -> & M).
      exists (x :: p), w, a. split; [reflexivity|].
      cbn [rev]. now rewrite <- app_assoc.
Qed.

Lemma execFrom_complete (r : regex) (p w a : list ascii) :
  forall bef,
    Matches i r (rev p ++ bef) w a ->
    execFrom i r bef (p ++ w ++ a) <> None.
Proof.
  induction p as [|x p IH]; intros bef M.
  - cbn [rev app] in *.
    assert (Hm : matchHere i r bef (w ++ a) <> None).
    { unfold matchHere. apply (proj1 (rmatch_complete _ _ _ _ M)).
      intros c. discriminate. }
    destruct (w ++ a); cbn [execFrom];
      destruct (matchHere i r bef _); try discriminate; contradiction.
  - cbn [app execFrom].
    destruct (matchHere i r bef (x :: p ++ w ++ a)); [discriminate|].
    apply IH. cbn [rev] in M. now rewrite <- app_assoc in M.
Qed.

End MatcherMeaning.

(** [re.test(s)] holds exactly when [re] matches some part of [s]. *)
Lemma test_iff_Matches (i : bool) (r : regex) (s : string) :
  test i r s = true <->
  exists p w a, chars s = p ++ w ++ a /\ Matches i r (rev p) w a.
Proof.
  unfold test. split.
  - destruct (execFrom i r [] (chars s)) as [[st e]|] eqn:H; [|discriminate].
    intros _. destruct (execFrom_sound i r _ _ _ _ H) as (p & w & a & E & M).
    exists p, w, a. rewrite app_nil_r in M. auto.
  - intros (p & w & a & E & M). rewrite E.
    pose proof (execFrom_complete i r p w a []) as H.
    rewrite app_nil_r in H. specialize (H M).
    destruct (execFrom i r [] (p ++ w ++ a)); [reflexivity | contradiction].
Qed.

(** ** The accepted URLs *)

Section Shapes.

Variable i : bool.

Lemma Matches_Seq_inv (r1 r2 : regex) (b w a : list ascii) :
  Matches i (Seq r1 r2) b w a ->
  exists w1 w2,
    w = w1 ++ w2 /\ Matches i r1 b w1 (w2 ++ a) /\ Matches i r2 (rev w1 ++ b) w2 a.
Proof. intros M. inversion M; subst. eauto. Qed.

Lemma Matches_Alt_inv (r1 r2 : regex) (b w a : list ascii) :
  Matches i (Alt r1 r2) b w a -> Matches i r1 b w a \/ Matches i r2 b w a.
Proof. intros M. inversion M; subst; auto. Qed.

Lemma Matches_Opt_inv (r : regex) (b w a : list ascii) :
  Matches i (Opt r) b w a -> Matches i r b w a \/ w = [].
Proof.
  intros M. apply Matches_Alt_inv in M as [M|M]; [auto|].
  inversion M; subst. auto.
Qed.

Lemma Matches_Group_inv (n : nat) (r : regex) (b w a : list ascii) :
  Matches i (Group n r) b w a -> Matches i r b w a.
Proof. intros M. inversion M; subst. assumption. Qed.

Lemma Matches_Opt_skip (r : regex) (b a : list ascii) : Matches i (Opt r) b [] a.
Proof. apply MAltR. constructor. Qed.

Lemma Matches_Opt_take (r : regex) (b w a : list ascii) :
  Matches i r b w a -> Matches i (Opt r) b w a.
Proof. intros M. apply MAltL. exact M. Qed.

Lemma Matches_Star_Class_inv (p : ascii -> bool) (r : regex) (b w a : list ascii) :
  Matches i r b w a -> r = Star (Class p) -> forallb p w = true.
Proof.
  induction 1; intros E; try discriminate E.
  - reflexivity.
  - injection E as ->. rewrite forallb_app. rewrite IHMatches2 by reflexivity.
    match goal with M : Matches _ (Class _) _ _ _ |- _ => inversion M; subst end.
    cbn [forallb]. match goal with Hp : p _ = true |- _ => now rewrite Hp end.
Qed.

Lemma Matches_Star_Class (p : ascii -> bool) (w : list ascii) :
  forallb p w = true -> forall b a, Matches i (Star (Class p)) b w a.
Proof.
  induction w as [|x w IH]; intros Hw b a; [constructor|].
  cbn [forallb] in Hw. apply andb_prop in Hw as [Hx Hw].
  change (x :: w) with ([x] ++ w). constructor.
  - discriminate.
  - now constructor.
  - apply (IH Hw).
Qed.

(** [p+] matches the non-empty runs of characters of the class. *)
Lemma Matches_Plus_Class_iff (p : ascii -> bool) (b w a : list ascii) :
  Matches i (Plus (Class p)) b w a <->
  exists x w', w = x :: w' /\ p x = true /\ forallb p w' = true.
Proof.
  split.
  - intros M. apply Matches_Seq_inv in M as (w1 & w2 & -> & M1 & M2).
    inversion M1; subst.
    exists x, w2. split; [reflexivity|]. split; [assumption|].
    exact (Matches_Star_Class_inv p _ _ _ _ M2 eq_refl).
  - intros (x & w' & -> & Hx & Hw).
    change (x :: w') with ([x] ++ w'). constructor.
    + now constructor.
    + now apply Matches_Star_Class.
Qed.

End Shapes.

(** A literal matches itself and nothing else (without the [i] flag). *)
Lemma Matches_Lit_iff (l b w a : list ascii) :
  Matches false (Lit l) b w a <-> w = l.
Proof.
  split.
  - revert b w. induction l as [|c l IH]; intros b w M; cbn [Lit] in M.
    + inversion M; subst. reflexivity.
    + apply Matches_Seq_inv in M as (w1 & w2 & -> & M1 & M2).
      inversion M1; subst.
      match goal with Hc : charMatches false _ _ = true |- _ =>
        cbn [charMatches] in Hc; apply Ascii.eqb_eq in Hc; subst end.
      rewrite (IH _ _ M2). reflexivity.
  - intros ->. revert b. induction l as [|c l IH]; intros b; cbn [Lit].
    + constructor.
    + change (c :: l) with ([c] ++ l). constructor; [|apply IH].
      constructor. cbn [charMatches]. apply Ascii.eqb_refl.
Qed.

Lemma Matches_LitS_iff (s : string) (b w a : list ascii) :
  Matches false (LitS s) b w a <-> w = chars s.
Proof. apply Matches_Lit_iff. Qed.

(** The three parts of [youtubeRegex] before the video id. *)
Lemma scheme_matches (b w a : list ascii) :
  Matches false
    (Opt (Group 1 (Seq (LitS "http") (Seq (Opt (Char "s")) (LitS "://")))))
    b w a <->
  In (str w) youtubeSchemes.
Proof.
  split.
  - intros M. apply Matches_Opt_inv in M as [M| ->]; [|left; reflexivity].
    apply Matches_Group_inv, Matches_Seq_inv in M as (w1 & w2 & -> & M1 & M2).
    apply Matches_LitS_iff in M1 as ->.
    apply Matches_Seq_inv in M2 as (w3 & w4 & -> & M3 & M4).
    apply Matches_LitS_iff in M4 as ->.
    apply Matches_Opt_inv in M3 as [M3| ->].
    + inversion M3; subst.
      match goal with Hc : charMatches false _ _ = true |- _ =>
        cbn [charMatches] in Hc; apply Ascii.eqb_eq in Hc; subst end.
      right. right. left. reflexivity.
    + right. left. reflexivity.
  - intros [E|[E|[E|[]]]]; apply (f_equal chars) in E; rewrite chars_str in E;
      subst w.
    + apply Matches_Opt_skip.
    + apply Matches_Opt_take. constructor.
      change (chars "http://") with (chars "http" ++ [] ++ chars "://").
      constructor; [now apply Matches_LitS_iff|].
      constructor; [apply Matches_Opt_skip | now apply Matches_LitS_iff].
    + apply Matches_Opt_take. constructor.
      change (chars "https://") with (chars "http" ++ ["s"%char] ++ chars "://").
      constructor; [now apply Matches_LitS_iff|].
      constructor; [|now apply Matches_LitS_iff].
      apply Matches_Opt_take. constructor. reflexivity.
Qed.

Lemma host_matches (b w a : list ascii) :
  Matches false (Opt (Group 2 (LitS "www."))) b w a <-> In (str w) youtubeHosts.
Proof.
  split.
  - intros M. apply Matches_Opt_inv in M as [M| ->]; [|left; reflexivity].
    apply Matches_Group_inv, Matches_LitS_iff in M as ->.
    right. left. reflexivity.
  - intros [E|[E|[]]]; apply (f_equal chars) in E; rewrite chars_str in E; subst w.
    + apply Matches_Opt_skip.
    + apply Matches_Opt_take. constructor. now apply Matches_LitS_iff.
Qed.

Lemma path_matches (b w a : list ascii) :
  Matches false
    (Group 3 (Alt (Seq (LitS "youtube.com/")
                       (Group 4 (Alt (LitS "watch?v=") (LitS "embed/"))))
                  (LitS "youtu.be/")))
    b w a <->
  In (str w) youtubePaths.
Proof.
  split.
  - intros M. apply Matches_Group_inv, Matches_Alt_inv in M as [M|M].
    + apply Matches_Seq_inv in M as (w1 & w2 & -> & M1 & M2).
      apply Matches_LitS_iff in M1 as ->.
      apply Matches_Group_inv, Matches_Alt_inv in M2 as [M2|M2];
        apply Matches_LitS_iff in M2 as ->.
      * left. reflexivity.
      * right. left. reflexivity.
    + apply Matches_LitS_iff in M as ->. right. right. left. reflexivity.
  - intros [E|[E|[E|[]]]]; apply (f_equal chars) in E; rewrite chars_str in E;
      subst w; constructor.
    + apply MAltL.
      change (chars "youtube.com/watch?v=")
        with (chars "youtube.com/" ++ chars "watch?v=").
      constructor; [now apply Matches_LitS_iff|].
      constructor. apply MAltL. now apply Matches_LitS_iff.
    + apply MAltL.
      change (chars "youtube.com/embed/")
        with (chars "youtube.com/" ++ chars "embed/").
      constructor; [now apply Matches_LitS_iff|].
      constructor. apply MAltR. now apply Matches_LitS_iff.
    + apply MAltR. now apply Matches_LitS_iff.
Qed.

Lemma in_youtubePrefixes (prefix : string) :
  In prefix youtubePrefixes <->
  exists scheme host path,
    In scheme youtubeSchemes /\ In host youtubeHosts /\ In path youtubePaths /\
    prefix = (scheme ++ host ++ path)%string.
Proof.
  unfold youtubePrefixes. rewrite in_flat_map. split.
  - intros (scheme & Hs & H). apply in_flat_map in H as (host & Hh & H).
    apply in_map_iff in H as (path & <- & Hp). eauto 8.
  - intros (scheme & host & path & Hs & Hh & Hp & ->).
    exists scheme. split; [exact Hs|]. apply in_flat_map.
    exists host. split; [exact Hh|]. apply in_map_iff. eauto.
Qed.

Lemma string_app_assoc (x y z : string) :
  ((x ++ y) ++ z)%string = (x ++ y ++ z)%string.
Proof. induction x as [|c x IH]; cbn [append]; [reflexivity | now rewrite IH]. Qed.

(** X9.  The handler accepts a URL exactly when it begins with an optional
    "http://" or "https://", an optional "www.", one of
    "youtube.com/watch?v=", "youtube.com/embed/" and "youtu.be/", and then
    at least one letter, digit, underscore or hyphen; what follows is not
    looked at.  Any other beginning is refused: another host name, another
    path, or a first query parameter other than [v]. *)
Theorem youtubeRegex_accepts_iff (youtubeUrl : string) :
  test false youtubeRegex youtubeUrl = true <->
  exists prefix c rest,
    In prefix youtubePrefixes /\
    isIdChar c = true /\
    youtubeUrl = (prefix ++ String c rest)%string.
Proof.
  rewrite test_iff_Matches. split.
  - intros (p & w & a & E & M). unfold youtubeRegex in M.
    apply Matches_Seq_inv in M as (w0 & w1 & -> & M0 & M).
    inversion M0; subst.
    apply Matches_Seq_inv in M as (ws & w2 & -> & Ms & M).
    apply Matches_Seq_inv in M as (wh & w3 & -> & Mh & M).
    apply Matches_Seq_inv in M as (wp & wi & -> & Mp & Mi).
    apply scheme_matches in Ms. apply host_matches in Mh. apply path_matches in Mp.
    apply Matches_Plus_Class_iff in Mi as (x & wi' & -> & Hx & _).
    assert (Hp : p = []).
    { match goal with Hr : [] = rev p |- _ =>
        apply (f_equal (@rev ascii)) in Hr; rewrite rev_involutive in Hr;
        symmetry; exact Hr end. }
    subst p. cbn [app] in E.
    exists (str ws ++ str wh ++ str wp)%string, x, (str (wi' ++ a)).
    split; [apply in_youtubePrefixes; eauto 8|].
    split; [exact Hx|].
    rewrite <- (str_chars youtubeUrl), E.
    rewrite <- !app_assoc, !str_app, !string_app_assoc. reflexivity.
  - intros (prefix & c & rest & Hin & Hc & ->).
    apply in_youtubePrefixes in Hin as (scheme & host & path & Hs & Hh & Hp & ->).
    exists [], (chars scheme ++ chars host ++ chars path ++ [c]), (chars rest).
    split.
    { rewrite !chars_app. cbn [app chars list_ascii_of_string].
      rewrite <- !app_assoc. reflexivity. }
    unfold youtubeRegex. cbn [rev].
    change (chars scheme ++ chars host ++ chars path ++ [c])
      with ([] ++ chars scheme ++ chars host ++ chars path ++ [c]).
    constructor; [constructor|].
    constructor; [apply scheme_matches; now rewrite str_chars|].
    constructor; [apply host_matches; now rewrite str_chars|].
    constructor; [apply path_matches; now rewrite str_chars|].
    apply Matches_Plus_Class_iff. exists c, []. auto.
Qed.

(** Some URLs of YouTube that the handler refuses, and one it accepts. *)
Example refused_and_accepted_urls :
  test false youtubeRegex "https://m.youtube.com/watch?v=dQw4w9WgXcQ" = false /\
  test false youtubeRegex "https://music.youtube.com/watch?v=dQw4w9WgXcQ" = false /\
  test false youtubeRegex "https://www.youtube.com/shorts/dQw4w9WgXcQ" = false /\
  test false youtubeRegex "https://www.youtube.com/watch?t=42&v=dQw4w9WgXcQ" = false /\
  test false youtubeRegex "HTTPS://WWW.YOUTUBE.COM/watch?v=dQw4w9WgXcQ" = false /\
  test false youtubeRegex "youtu.be/-" = true.
Proof. repeat split; vm_compute; reflexivity. Qed.

(** ** The local cleaning, for every text *)

Lemma collapseSpaces_skip (l : list ascii) :
  collapseSpaces true l = collapseSpaces false (skipSpaces l).
Proof.
  induction l as [|x l IH]; [reflexivity|].
  cbn [collapseSpaces skipSpaces].
  destruct (isSpace x) eqn:Hx; [exact IH|].
  cbn [collapseSpaces]. now rewrite Hx.
Qed.

Lemma skipSpaces_length (l : list ascii) :
  List.length (skipSpaces l) <= List.length l.
Proof.
  induction l as [|x l IH]; [reflexivity|].
  cbn [skipSpaces]. destruct (isSpace x); cbn [List.length]; lia.
Qed.

(** The iteration of [\s] runs to the end of the white space. *)
Lemma starLoop_spaces (l : list ascii) :
  forall n b c,
    List.length l <= n ->
    exists b',
      starLoop (rmatch false (Class isSpace)) (fun st => Some st) n (MState b l c) =
      Some (MState b' (skipSpaces l) c).
Proof.
  induction l as [|x l IH]; intros n b c Hn.
  - exists b. destruct n as [|n]; [reflexivity|].
    rewrite starLoop_S, rmatch_Class_nil. reflexivity.
  - destruct n as [|n]; [cbn in Hn; lia|].
    rewrite starLoop_S, rmatch_Class_cons. cbn [skipSpaces].
    destruct (isSpace x).
    + cbn [after]. rewrite ltb_length_cons.
      destruct (IH n (x :: b) c ltac:(cbn in Hn; lia)) as (b' & ->).
      exists b'. reflexivity.
    + exists b. reflexivity.
Qed.

Lemma matchHere_spaces (bef l : list ascii) :
  match l with
  | x :: l' =>
      if isSpace x
      then exists b', matchHere false spacesRegex bef l =
                      Some (MState b' (skipSpaces l') [])
      else matchHere false spacesRegex bef l = None
  | [] => matchHere false spacesRegex bef l = None
  end.
Proof.
  unfold matchHere, spacesRegex, Plus.
  destruct l as [|x l]; [reflexivity|].
  rewrite rmatch_Seq, rmatch_Class_cons.
  destruct (isSpace x); [|reflexivity].
  rewrite rmatch_Star. cbn [after].
  apply starLoop_spaces. lia.
Qed.

(** [replace(/\s+/g, ' ')] collapses every run of white space. *)
Lemma replaceLoop_spaces (fuel : nat) :
  forall l bef,
    List.length l < fuel ->
    replaceLoop false spacesRegex [TLit [" "%char]] fuel bef l =
    collapseSpaces false l.
Proof.
  induction fuel as [|fuel IH]; intros l bef Hf; [lia|].
  cbn [replaceLoop].
  pose proof (matchHere_spaces bef l) as Hm.
  destruct l as [|x l].
  - rewrite Hm. reflexivity.
  - cbn [collapseSpaces]. destruct (isSpace x).
    + destruct Hm as (b' & ->). cbn [expand flat_map app after].
      pose proof (skipSpaces_length l) as Hs.
      replace (List.length (skipSpaces l) <? List.length (x :: l)) with true
        by (symmetry; apply Nat.ltb_lt; cbn [List.length]; lia).
      cbn [before]. rewrite IH by (cbn [List.length] in Hf; lia).
      now rewrite collapseSpaces_skip.
    + rewrite Hm. rewrite IH by (cbn [List.length] in Hf; lia). reflexivity.
Qed.

Lemma length_chars (s : string) : List.length (chars s) = String.length s.
Proof.
  induction s as [|c s IH]; [reflexivity|].
  cbn [chars list_ascii_of_string List.length String.length].
  f_equal. exact IH.
Qed.

Lemma replaceAll_spaces (s : string) :
  replaceAll false spacesRegex [TLit [" "%char]] s =
  str (collapseSpaces false (chars s)).
Proof.
  unfold replaceAll. f_equal. apply replaceLoop_spaces.
  rewrite length_chars. lia.
Qed.

(** Facts on single characters, by cases on the code unit. *)
Ltac byCharCases c :=
  destruct c as [[] [] [] [] [] [] [] []]; vm_compute; try reflexivity;
  try discriminate; auto.

Lemma isPunct_not_space (c : ascii) : isPunct c = true -> isSpace c = false.
Proof. byCharCases c. Qed.

Lemma blank_isSpace : isSpace " "%char = true.
Proof. reflexivity. Qed.

Lemma noPair_cons (p q : ascii -> bool) (x : ascii) (l : list ascii) :
  noPair p q (x :: l) =
  match l with
  | y :: _ => negb (p x && q y) && noPair p q l
  | [] => true
  end.
Proof. reflexivity. Qed.

Lemma noPair_tail (p q : ascii -> bool) (x : ascii) (l : list ascii) :
  noPair p q (x :: l) = true -> noPair p q l = true.
Proof.
  rewrite noPair_cons. destruct l as [|y l]; [reflexivity|].
  intros H. now apply andb_true_iff in H.
Qed.

(** What [collapseSpaces] leaves. *)
Lemma collapseSpaces_head (l : list ascii) :
  headNotSpace (collapseSpaces true l) = true.
Proof.
  induction l as [|x l IH]; [reflexivity|].
  cbn [collapseSpaces]. destruct (isSpace x) eqn:Hx; [exact IH|].
  cbn [headNotSpace]. now rewrite Hx.
Qed.

Lemma collapseSpaces_singleSpaced (l : list ascii) :
  forall inRun, singleSpaced (collapseSpaces inRun l) = true.
Proof.
  unfold singleSpaced.
  induction l as [|x l IH]; intros inRun; [reflexivity|].
  cbn [collapseSpaces]. destruct (isSpace x) eqn:Hx.
  - destruct inRun; [apply IH|].
    rewrite noPair_cons. pose proof (collapseSpaces_head l) as Hh.
    specialize (IH true).
    destruct (collapseSpaces true l) as [|y t]; [reflexivity|].
    cbn [headNotSpace] in Hh. apply negb_true_iff in Hh.
    rewrite Hh, andb_false_r. exact IH.
  - rewrite noPair_cons. specialize (IH false).
    destruct (collapseSpaces false l) as [|y t]; [reflexivity|].
    rewrite Hx. exact IH.
Qed.

Lemma collapseSpaces_forallb (P : ascii -> bool) (l : list ascii) :
  P " "%char = true ->
  forallb P l = true ->
  forall inRun, forallb P (collapseSpaces inRun l) = true.
Proof.
  intros Hb. induction l as [|x l IH]; intros Hl inRun; [reflexivity|].
  cbn [forallb] in Hl. apply andb_true_iff in Hl as [Hx Hl].
  cbn [collapseSpaces].
  destruct (isSpace x); [destruct inRun|]; cbn [forallb];
    rewrite ?Hb, ?Hx; cbn [andb]; auto.
Qed.

Lemma collapseSpaces_blanksOnly (l : list ascii) :
  forall inRun, blanksOnly (collapseSpaces inRun l) = true.
Proof.
  unfold blanksOnly.
  induction l as [|x l IH]; intros inRun; [reflexivity|].
  cbn [collapseSpaces]. destruct (isSpace x) eqn:Hx.
  - destruct inRun; [apply IH|]. cbn [forallb]. rewrite IH. reflexivity.
  - cbn [forallb]. rewrite Hx, IH. reflexivity.
Qed.

(** An attempt of [/\s+([,.!?])/] in a text whose white space is single. *)
Lemma rmatch_Group (i : bool) (n : nat) (r : regex) (st : mstate)
    (k : Continuation) :
  rmatch i (Group n r) st k =
  rmatch i r st (fun st' =>
    k (MState (before st') (after st')
         ((n, firstn (List.length (after st) - List.length (after st')) (after st))
            :: caps st'))).
Proof. reflexivity. Qed.

Lemma matchHere_spaceBeforePunct (bef : list ascii) (x : ascii) (l1 : list ascii) :
  singleSpaced (x :: l1) = true ->
  match l1 with
  | y :: l' =>
      if isSpace x && isPunct y
      then exists b', matchHere false spaceBeforePunctRegex bef (x :: l1) =
                      Some (MState b' l' [(1, [y])])
      else matchHere false spaceBeforePunctRegex bef (x :: l1) = None
  | [] => matchHere false spaceBeforePunctRegex bef (x :: l1) = None
  end.
Proof.
  unfold singleSpaced, matchHere, spaceBeforePunctRegex, Plus. intros Hs.
  rewrite !rmatch_Seq, rmatch_Class_cons.
  destruct l1 as [|y l'].
  - destruct (isSpace x); reflexivity.
  - rewrite noPair_cons in Hs. apply andb_true_iff in Hs as [Hxy _].
    destruct (isSpace x) eqn:Hx; [|reflexivity].
    cbn [andb] in Hxy |- *. apply negb_true_iff in Hxy.
    rewrite rmatch_Star. cbn [after List.length].
    rewrite starLoop_S, rmatch_Class_cons, Hxy.
    rewrite rmatch_Group, rmatch_Class_cons.
    destruct (isPunct y); [|reflexivity].
    cbn [before after caps List.length].
    replace (S (List.length l') - List.length l') with 1 by lia.
    eexists. reflexivity.
Qed.

Lemma matchHere_spaceBeforePunct_nil (bef : list ascii) :
  matchHere false spaceBeforePunctRegex bef [] = None.
Proof. reflexivity. Qed.

(** [replace(/\s+([,.!?])/g, '$1')] drops the blank before a mark. *)
Lemma replaceLoop_spaceBeforePunct (fuel : nat) :
  forall l bef,
    singleSpaced l = true ->
    List.length l < fuel ->
    replaceLoop false spaceBeforePunctRegex [TGroup 1] fuel bef l =
    dropSpaceBeforePunct l.
Proof.
  induction fuel as [|fuel IH]; intros l bef Hs Hf; [lia|].
  cbn [replaceLoop].
  destruct l as [|x l1].
  - rewrite matchHere_spaceBeforePunct_nil. reflexivity.
  - pose proof (matchHere_spaceBeforePunct bef x l1 Hs) as Hm.
    pose proof (noPair_tail _ _ _ _ Hs) as Hs1.
    cbn [dropSpaceBeforePunct].
    destruct l1 as [|y l'].
    + rewrite Hm. rewrite IH by (auto; cbn [List.length] in *; lia).
      reflexivity.
    + destruct (isSpace x && isPunct y).
      * destruct Hm as (b' & ->).
        cbn [expand flat_map capture Nat.eqb caps app after before].
        replace (List.length l' <? List.length (x :: y :: l')) with true
          by (symmetry; apply Nat.ltb_lt; cbn [List.length]; lia).
        rewrite IH; [reflexivity | | cbn [List.length] in Hf; lia].
        exact (noPair_tail _ _ _ _ Hs1).
      * rewrite Hm. rewrite IH by (auto; cbn [List.length] in *; lia).
        reflexivity.
Qed.

Lemma replaceAll_spaceBeforePunct (l : list ascii) :
  singleSpaced l = true ->
  replaceAll false spaceBeforePunctRegex [TGroup 1] (str l) =
  str (dropSpaceBeforePunct l).
Proof.
  intros Hs. unfold replaceAll. f_equal. rewrite chars_str.
  apply replaceLoop_spaceBeforePunct; [exact Hs|].
  rewrite <- (chars_str l) at 1. rewrite length_chars. lia.
Qed.

Lemma list_pair_ind (P : list ascii -> Prop) :
  P [] ->
  (forall x, P [x]) ->
  (forall x y l, P l -> P (y :: l) -> P (x :: y :: l)) ->
  forall l, P l.
Proof.
  intros H0 H1 H2 l.
  assert (H : P l /\ forall x, P (x :: l)); [|exact (proj1 H)].
  induction l as [|y l [IHl IHc]]; split; auto.
Qed.

Lemma noPair_intro (p q : ascii -> bool) (x : ascii) (t : list ascii) :
  p x = false \/ match t with y :: _ => q y = false | [] => True end ->
  noPair p q t = true ->
  noPair p q (x :: t) = true.
Proof.
  intros H Ht. rewrite noPair_cons. destruct t as [|y t]; [reflexivity|].
  rewrite Ht, andb_true_r. apply negb_true_iff, andb_false_iff. exact H.
Qed.

Lemma noPair_app_r (p q : ascii -> bool) (a m : list ascii) :
  noPair p q (a ++ m) = true -> noPair p q m = true.
Proof.
  induction a as [|x a IH]; [auto|].
  intros H. apply IH. exact (noPair_tail _ _ _ _ H).
Qed.

Lemma noPair_app_l (p q : ascii -> bool) (m b : list ascii) :
  noPair p q (m ++ b) = true -> noPair p q m = true.
Proof.
  induction m as [|x m IH]; [reflexivity|].
  destruct m as [|y m]; [reflexivity|].
  cbn [app] in *. rewrite !noPair_cons. intros H.
  apply andb_true_iff in H as [Hxy H]. rewrite Hxy. exact (IH H).
Qed.

(** What [dropSpaceBeforePunct] leaves. *)
Lemma dropSpaceBeforePunct_cons2 (x y : ascii) (l : list ascii) :
  dropSpaceBeforePunct (x :: y :: l) =
  if isSpace x && isPunct y then y :: dropSpaceBeforePunct l
  else x :: dropSpaceBeforePunct (y :: l).
Proof. reflexivity. Qed.

Lemma dropSpaceBeforePunct_forallb (P : ascii -> bool) :
  forall l, forallb P l = true -> forallb P (dropSpaceBeforePunct l) = true.
Proof.
  induction l as [| |x y l IHl IHyl] using list_pair_ind; auto.
  intros H. cbn [forallb] in H.
  apply andb_true_iff in H as [Hx H]. pose proof H as Hyl.
  apply andb_true_iff in H as [Hy Hl].
  rewrite dropSpaceBeforePunct_cons2. destruct (isSpace x && isPunct y).
  - cbn [forallb]. rewrite Hy. apply IHl, Hl.
  - cbn [forallb]. rewrite Hx. apply IHyl. cbn [forallb]. exact Hyl.
Qed.

Lemma dropSpaceBeforePunct_head (y : ascii) (l : list ascii) :
  isSpace y = false ->
  dropSpaceBeforePunct (y :: l) = y :: dropSpaceBeforePunct l.
Proof.
  intros Hy. cbn [dropSpaceBeforePunct]. destruct l as [|z l]; [reflexivity|].
  now rewrite Hy.
Qed.

Lemma dropSpaceBeforePunct_singleSpaced :
  forall l, singleSpaced l = true -> singleSpaced (dropSpaceBeforePunct l) = true.
Proof.
  unfold singleSpaced.
  induction l as [| |x y l IHl IHyl] using list_pair_ind; auto.
  intros Hs. pose proof (noPair_tail _ _ _ _ Hs) as Hyl.
  pose proof (noPair_tail _ _ _ _ Hyl) as Hl.
  rewrite noPair_cons in Hs. apply andb_true_iff in Hs as [Hxy _].
  apply negb_true_iff in Hxy.
  rewrite dropSpaceBeforePunct_cons2. destruct (isSpace x && isPunct y) eqn:Hp.
  - apply andb_true_iff in Hp as [_ Hp].
    apply noPair_intro; [left; now apply isPunct_not_space | auto].
  - apply noPair_intro; [|auto].
    destruct (isSpace x) eqn:Hx; [right | now left].
    cbn [andb] in Hxy. rewrite (dropSpaceBeforePunct_head _ _ Hxy). exact Hxy.
Qed.

Lemma dropSpaceBeforePunct_noSpaceBeforePunct :
  forall l,
    singleSpaced l = true -> noSpaceBeforePunct (dropSpaceBeforePunct l) = true.
Proof.
  unfold singleSpaced, noSpaceBeforePunct.
  induction l as [| |x y l IHl IHyl] using list_pair_ind; auto.
  intros Hs. pose proof (noPair_tail _ _ _ _ Hs) as Hyl.
  pose proof (noPair_tail _ _ _ _ Hyl) as Hl.
  rewrite noPair_cons in Hs. apply andb_true_iff in Hs as [Hxy _].
  apply negb_true_iff in Hxy.
  rewrite dropSpaceBeforePunct_cons2. destruct (isSpace x && isPunct y) eqn:Hp.
  - apply andb_true_iff in Hp as [_ Hp].
    apply noPair_intro; [left; now apply isPunct_not_space | auto].
  - apply noPair_intro; [|auto].
    destruct (isSpace x) eqn:Hx; [right | now left].
    cbn [andb] in Hxy, Hp. rewrite (dropSpaceBeforePunct_head _ _ Hxy). exact Hp.
Qed.

(** [trim] keeps a stretch of the text that neither starts nor ends with
    white space. *)
Lemma trimStartChars_suffix (l : list ascii) :
  exists p, l = p ++ trimStartChars l.
Proof.
  induction l as [|x l [p IH]]; [now exists []|].
  cbn [trimStartChars]. destruct (isSpace x).
  - exists (x :: p). cbn [app]. now f_equal.
  - now exists [].
Qed.

Lemma trimStartChars_head (l : list ascii) :
  headNotSpace (trimStartChars l) = true.
Proof.
  induction l as [|x l IH]; [reflexivity|].
  cbn [trimStartChars]. destruct (isSpace x) eqn:Hx; [exact IH|].
  cbn [headNotSpace]. now rewrite Hx.
Qed.

Lemma trimStartChars_keeps_last (l : list ascii) (x : ascii) :
  isSpace x = false ->
  exists t, trimStartChars (l ++ [x]) = t ++ [x].
Proof.
  intros Hx. induction l as [|y l [t IH]].
  - exists []. cbn [app trimStartChars]. now rewrite Hx.
  - cbn [app trimStartChars]. destruct (isSpace y).
    + now exists t.
    + now exists (y :: l).
Qed.

Lemma trimChars_infix (l : list ascii) :
  exists p q, l = p ++ trimChars l ++ q.
Proof.
  unfold trimChars.
  destruct (trimStartChars_suffix l) as [p Hp].
  destruct (trimStartChars_suffix (rev (trimStartChars l))) as [q Hq].
  exists p, (rev q).
  rewrite <- rev_app_distr, <- Hq, rev_involutive. exact Hp.
Qed.

Lemma trimChars_trimmed (l : list ascii) : trimmed (trimChars l) = true.
Proof.
  unfold trimmed, trimChars. rewrite rev_involutive, trimStartChars_head.
  rewrite andb_true_r.
  pose proof (trimStartChars_head l) as Hh.
  destruct (trimStartChars l) as [|x m]; [reflexivity|].
  cbn [headNotSpace] in Hh. apply negb_true_iff in Hh.
  cbn [rev]. destruct (trimStartChars_keeps_last (rev m) x Hh) as [t ->].
  rewrite rev_app_distr. cbn [rev app headNotSpace]. now rewrite Hh.
Qed.

Lemma trimChars_noPair (p q : ascii -> bool) (l : list ascii) :
  noPair p q l = true -> noPair p q (trimChars l) = true.
Proof.
  destruct (trimChars_infix l) as (a & b & E). intros H.
  rewrite E in H. exact (noPair_app_l _ _ _ _ (noPair_app_r _ _ _ _ H)).
Qed.

Lemma trimChars_forallb (P : ascii -> bool) (l : list ascii) :
  forallb P l = true -> forallb P (trimChars l) = true.
Proof.
  destruct (trimChars_infix l) as (a & b & E). intros H.
  rewrite E, !forallb_app in H.
  apply andb_true_iff in H as [_ H]. now apply andb_true_iff in H.
Qed.

(** The capital on the first character. *)
Lemma upperChar_not_space (c : ascii) :
  isSpace c = false -> isSpace (upperChar c) = false.
Proof. byCharCases c. Qed.

Lemma upperChar_not_lower (c : ascii) : isLower (upperChar c) = false.
Proof. byCharCases c. Qed.

Lemma lowerChar_not_upper (c : ascii) : isUpper (lowerChar c) = false.
Proof. byCharCases c. Qed.

Lemma headNotSpace_last (l : list ascii) (a a' : ascii) :
  isSpace a = false -> isSpace a' = false ->
  headNotSpace (l ++ [a']) = headNotSpace (l ++ [a]).
Proof.
  intros Ha Ha'. destruct l as [|y l]; [|reflexivity].
  cbn [app headNotSpace]. now rewrite Ha, Ha'.
Qed.

Lemma capitalize_chars (l : list ascii) :
  chars (toUpperCase (charAt0 (str l)) ++ slice1 (str l))%string =
  capitalizeChars l.
Proof.
  destruct l as [|x l]; [reflexivity|].
  cbn [str string_of_list_ascii charAt0 slice1].
  unfold toUpperCase.
  cbn [chars list_ascii_of_string map str string_of_list_ascii String.append
       capitalizeChars].
  f_equal. apply list_ascii_of_string_of_list_ascii.
Qed.

Lemma capitalizeChars_noPair (q : ascii -> bool) (l : list ascii) :
  headNotSpace l = true ->
  noPair isSpace q l = true -> noPair isSpace q (capitalizeChars l) = true.
Proof.
  destruct l as [|x l]; [auto|]. cbn [headNotSpace capitalizeChars].
  intros Hx H. apply negb_true_iff in Hx.
  apply noPair_intro; [left; now apply upperChar_not_space|].
  exact (noPair_tail _ _ _ _ H).
Qed.

Lemma capitalizeChars_blanksOnly (l : list ascii) :
  headNotSpace l = true ->
  blanksOnly l = true -> blanksOnly (capitalizeChars l) = true.
Proof.
  unfold blanksOnly.
  destruct l as [|x l]; [auto|]. cbn [headNotSpace capitalizeChars forallb].
  intros Hx H. apply negb_true_iff in Hx.
  apply andb_true_iff in H as [_ H].
  now rewrite (upperChar_not_space _ Hx), H.
Qed.

Lemma capitalizeChars_trimmed (l : list ascii) :
  trimmed l = true -> trimmed (capitalizeChars l) = true.
Proof.
  unfold trimmed.
  destruct l as [|x l]; [auto|]. cbn [headNotSpace capitalizeChars rev].
  intros H. apply andb_true_iff in H as [Hx Hl].
  apply negb_true_iff in Hx.
  rewrite (upperChar_not_space _ Hx). cbn [negb andb].
  rewrite <- Hl. apply headNotSpace_last; [exact Hx|].
  now apply upperChar_not_space.
Qed.

(** The text of [simpleCleanText], step by step on the characters. *)
Lemma simpleCleanText_chars (text : string) :
  chars (simpleCleanText text) =
  capitalizeChars
    (trimChars
       (dropSpaceBeforePunct
          (collapseSpaces false (chars (removeFillers (toLowerCase text)))))).
Proof.
  unfold simpleCleanText.
  rewrite replaceAll_spaces.
  rewrite replaceAll_spaceBeforePunct by apply collapseSpaces_singleSpaced.
  unfold trim, trimChars. rewrite chars_str.
  now rewrite capitalize_chars.
Qed.

(** A replacement by the empty string only deletes: what holds of every
    character of the text holds of every character of the result. *)
Lemma replaceLoop_delete_forallb (i : bool) (r : regex) (P : ascii -> bool)
    (fuel : nat) :
  forall bef l,
    forallb P l = true ->
    forallb P (replaceLoop i r [] fuel bef l) = true.
Proof.
  induction fuel as [|fuel IH]; intros bef l Hl; [exact Hl|].
  cbn [replaceLoop].
  assert (Hskip : forallb P
            match l with
            | [] => []
            | c :: aft' => c :: replaceLoop i r [] fuel (c :: bef) aft'
            end = true).
  { destruct l as [|c l]; [reflexivity|]. cbn [forallb] in Hl |- *.
    apply andb_true_iff in Hl as [Hc Hl]. rewrite Hc. now apply IH. }
  destruct (matchHere i r bef l) as [e|] eqn:Hm; [|exact Hskip].
  cbn [expand flat_map app].
  destruct (List.length (after e) <? List.length l); [|exact Hskip].
  apply IH. unfold matchHere in Hm.
  destruct (rmatch_sound i r _ _ _ _ _ Hm) as (w & a & c' & E & _ & He).
  injection He as <-. cbn [after]. rewrite E, forallb_app in Hl.
  now apply andb_true_iff in Hl.
Qed.

Lemma removeFillers_forallb (P : ascii -> bool) (text : string) :
  forallb P (chars text) = true ->
  forallb P (chars (removeFillers text)) = true.
Proof.
  unfold removeFillers. generalize fillerWords. intros ws. revert text.
  induction ws as [|f ws IH]; intros text H; [exact H|].
  cbn [fold_left]. apply IH. unfold replaceAll. rewrite chars_str.
  now apply replaceLoop_delete_forallb.
Qed.

Lemma toLowerCase_noCapital (text : string) :
  noCapital (chars (toLowerCase text)) = true.
Proof.
  unfold toLowerCase, noCapital. rewrite chars_str.
  induction (chars text) as [|c l IH]; [reflexivity|].
  cbn [map forallb]. now rewrite lowerChar_not_upper, IH.
Qed.

(** X10.  Whatever the text of a segment (of ASCII characters), the text
    that the local cleaning returns for it has its white space in normal
    form: no two white-space characters in a row, no white space other
    than the blank, no white space right before one of [, . ! ?], and none
    at its start or at its end. *)
Theorem simpleCleanText_whitespace_normal (text : string) :
  isAsciiText text = true ->
  singleSpaced (chars (simpleCleanText text)) = true /\
  blanksOnly (chars (simpleCleanText text)) = true /\
  noSpaceBeforePunct (chars (simpleCleanText text)) = true /\
  trimmed (chars (simpleCleanText text)) = true.
Proof.
  intros _. rewrite simpleCleanText_chars.
  generalize (chars (removeFillers (toLowerCase text))). intros m.
  pose proof (collapseSpaces_singleSpaced m false) as Hc.
  pose proof (collapseSpaces_blanksOnly m false) as Hb.
  revert Hc Hb. generalize (collapseSpaces false m). intros c Hc Hb.
  pose proof (dropSpaceBeforePunct_singleSpaced c Hc) as Hd1.
  pose proof (dropSpaceBeforePunct_forallb _ c Hb) as Hd2.
  pose proof (dropSpaceBeforePunct_noSpaceBeforePunct c Hc) as Hd3.
  revert Hd1 Hd2 Hd3. generalize (dropSpaceBeforePunct c).
  intros d Hd1 Hd2 Hd3.
  pose proof (trimChars_trimmed d) as Ht.
  assert (Hh : headNotSpace (trimChars d) = true).
  { unfold trimmed in Ht. apply andb_true_iff in Ht. exact (proj1 Ht). }
  repeat split.
  - apply capitalizeChars_noPair; [exact Hh|]. now apply trimChars_noPair.
  - apply capitalizeChars_blanksOnly; [exact Hh|]. now apply trimChars_forallb.
  - apply capitalizeChars_noPair; [exact Hh|]. now apply trimChars_noPair.
  - now apply capitalizeChars_trimmed.
Qed.

Lemma simpleCleanText_whitespace_normal_witness :
  chars (simpleCleanText untidyExample) = chars "This is,, great!" /\
  singleSpaced (chars (simpleCleanText untidyExample)) = true /\
  blanksOnly (chars (simpleCleanText untidyExample)) = true /\
  noSpaceBeforePunct (chars (simpleCleanText untidyExample)) = true /\
  trimmed (chars (simpleCleanText untidyExample)) = true.
Proof.
  split; [vm_compute; reflexivity|].
  apply (simpleCleanText_whitespace_normal untidyExample). reflexivity.
Defined.

(** X11.  Whatever the text of a segment (of ASCII characters), the text
    that the local cleaning returns for it is in lower case but for its
    first character: that one is no lower-case letter, and no character
    after it is a capital letter. *)
Theorem simpleCleanText_case (text : string) :
  isAsciiText text = true ->
  match chars (simpleCleanText text) with
  | [] => True
  | x :: rest => isLower x = false /\ noCapital rest = true
  end.
Proof.
  intros _. rewrite simpleCleanText_chars.
  assert (H : noCapital
                (trimChars
                   (dropSpaceBeforePunct
                      (collapseSpaces false
                         (chars (removeFillers (toLowerCase text)))))) = true).
  { unfold noCapital.
    apply trimChars_forallb, dropSpaceBeforePunct_forallb.
    apply collapseSpaces_forallb; [reflexivity|].
    apply removeFillers_forallb, toLowerCase_noCapital. }
  destruct (trimChars _) as [|x l]; [exact I|].
  cbn [capitalizeChars]. split; [apply upperChar_not_lower|].
  unfold noCapital in *. cbn [forallb] in H. now apply andb_true_iff in H.
Qed.

Lemma simpleCleanText_case_witness :
  match chars (simpleCleanText untidyExample) with
  | [] => True
  | x :: rest => isLower x = false /\ noCapital rest = true
  end.
Proof.
  apply (simpleCleanText_case untidyExample). reflexivity.
Defined.
